(** * Reddit company-intelligence client: a shallow embedding

    The development follows the frontend sources file by file:
    [types/analysis.ts], [lib/format.ts], [services/apiClient.ts], the
    analysis service, the [useAnalysisJob] hook, the [JobStatus] and
    [CompetitiveDashboard] components and [app/page.tsx].  The analytics and
    entity-resolution engines live in the backend, which is not part of the
    sources at hand; the few definitions that stand for them are marked as
    modelled from the specification. *)

From Stdlib Require Import ZArith QArith Qcanon Lia Bool.
From stdpp Require Import base option strings list gmap sorting pretty.

Set Warnings "-register-all,-clear-no-such-hyp".
Local Open Scope string_scope.
Local Open Scope Z_scope.

(** ** types/analysis.ts *)

Inductive JobStatus := queued | running | complete | failed.

Inductive ProgressStep :=
  | resolving_company
  | discovering_subreddits
  | fetching_sources
  | llm_extraction
  | persisting.

#[global] Instance JobStatus_eq_dec : EqDecision JobStatus.
Proof. solve_decision. Defined.
#[global] Instance ProgressStep_eq_dec : EqDecision ProgressStep.
Proof. solve_decision. Defined.




Definition all_ProgressStep : list ProgressStep :=
  [resolving_company; discovering_subreddits; fetching_sources;
   llm_extraction; persisting].

Record AnalyzeResponse := {
  ar_job_id : string;
  ar_status : JobStatus;
}.

Record JobResult := {
  company_name : string;
  company_aliases : option (list string);
  subreddit_count : Z;
  source_count : Z;
  entity_count : Z;
  relationship_count : Z;
}.

Record JobResponse := {
  job_id : string;
  status : JobStatus;
  progress : option ProgressStep;
  error : option string;
  result : option JobResult;
}.

(** ** lib/format.ts *)

(** [str.slice(0, end)] for an integral [end]: a negative [end] counts from
    the end of the string, and the bounds are clamped to [0, length].  The
    characters of a [string] stand for the code units [length] and [slice]
    count. *)
Definition slice0 (str : string) (e : Z) : string :=
  let len := Z.of_nat (String.length str) in
  let final := if e <? 0 then Z.max (len + e) 0 else Z.min e len in
  String.substring 0 (Z.to_nat final) str.

Definition truncate (str : string) (maxLen : Z) : string :=
  if Z.of_nat (String.length str) <=? maxLen then str
  else slice0 str (maxLen - 3) +:+ "...".

(** ** services/apiClient.ts *)

(** What the client needs to know about a JavaScript number that shows up in
    a parsed body: whether it is truthy and how it prints. *)
Class JsNumber (num : Type) := {
  num_truthy : num → bool;
  num_toString : num → string;
}.

(** The integers as JavaScript numbers, for concrete examples: [pretty] is
    what [String(n)] prints for an integer of magnitude below 10^21, which
    JavaScript writes in plain decimal notation. *)
#[global] Instance JsNumber_Z : JsNumber Z := {
  num_truthy n := negb (n =? 0);
  num_toString n := pretty n;
}.

Section json.
Context {num : Type} `{!JsNumber num}.

(** A parsed JSON value; an object lists its properties with distinct
    keys, in the order [JSON.parse] created them. *)
Inductive json :=
  | JNull
  | JBool (b : bool)
  | JNum (n : num)
  | JStr (s : string)
  | JArr (items : list json)
  | JObj (fields : list (string * json)).

(** The result of reading a property or a variable: [None] is
    [undefined]. *)
Definition jsval := option json.

Definition truthy (v : jsval) : bool :=
  match v with
  | None => false
  | Some JNull => false
  | Some (JBool b) => b
  | Some (JNum n) => num_truthy n
  | Some (JStr s) => negb (String.eqb s "")
  | Some (JArr _) => true
  | Some (JObj _) => true
  end.

(** [a || b] *)
Definition js_or (a b : jsval) : jsval := if truthy a then a else b.

Fixpoint assoc (key : string) (fields : list (string * json)) : jsval :=
  match fields with
  | [] => None
  | (k, v) :: rest => if String.eqb k key then Some v else assoc key rest
  end.

(** [body.key] for a parsed body that is not [null]: only objects carry
    the properties the client asks for. *)
Definition prop (body : json) (key : string) : jsval :=
  match body with
  | JObj fields => assoc key fields
  | _ => None
  end.

(** [String(v)], as the [Error] constructor applies it to its message. *)
Fixpoint ToString (v : json) : string :=
  match v with
  | JNull => "null"
  | JBool true => "true"
  | JBool false => "false"
  | JNum n => num_toString n
  | JStr s => s
  | JArr items =>
      String.concat ","
        (List.map (fun x => match x with JNull => "" | _ => ToString x end) items)
  | JObj _ => "[object Object]"
  end.

Inductive Method := GET | POST.

(** The arguments of one [fetch] call.  [rq_body] is the value handed to
    [JSON.stringify]. *)
Record Request := {
  rq_method : Method;
  rq_url : string;
  rq_headers : list (string * string);
  rq_body : option json;
}.

(** A [Response]; [rs_json] is what [response.json()] settles to, [None]
    when the body is missing or is not JSON and the promise rejects. *)
Record Response := {
  rs_status : Z;
  rs_statusText : string;
  rs_json : option json;
}.

(** [response.ok] *)
Definition ok (response : Response) : bool :=
  (200 <=? rs_status response) && (rs_status response <=? 299).

Record ApiError := {
  ae_status : Z;
  ae_statusText : string;
  ae_message : string;
}.

(** [`${status} ${statusText}`] *)
Definition default_message (status : Z) (statusText : string) : string :=
  pretty status +:+ " " +:+ statusText.

(** [new ApiError(status, statusText, message)] *)
Definition new_ApiError (status : Z) (statusText : string) (message : jsval)
  : ApiError :=
  {| ae_status := status;
     ae_statusText := statusText;
     ae_message :=
       match js_or message (Some (JStr (default_message status statusText))) with
       | Some v => ToString v
       | None => "undefined"
       end |}.

Inductive exn :=
  | ThrownApiError (e : ApiError)
  | SyntaxError
  | TypeError.

(** How a promise settles. *)
Inductive outcome (T : Type) :=
  | Resolved (v : T)
  | Rejected (e : exn).
#[global] Arguments Resolved {T} v.
#[global] Arguments Rejected {T} e.

(** The [try] block of [handleResponse]: reading a property of [null]
    throws, and so does a body that does not parse; the [catch] leaves
    [message] undefined. *)
Definition error_message (response : Response) : jsval :=
  match rs_json response with
  | None => None
  | Some JNull => None
  | Some body => js_or (prop body "detail") (prop body "message")
  end.

Definition handleResponse (response : Response) : outcome json :=
  if negb (ok response) then
    Rejected (ThrownApiError
      (new_ApiError (rs_status response) (rs_statusText response)
                    (error_message response)))
  else
    match rs_json response with
    | Some v => Resolved v
    | None => Rejected SyntaxError
    end.

(** The message the helpers are meant to report for a response that is
    not ok: the error body's [detail] field, else its [message] field,
    whichever is truthy first, else the status line. *)
Definition reported_message (response : Response) : string :=
  let fallback :=
    default_message (rs_status response) (rs_statusText response) in
  match rs_json response with
  | Some (JObj fields) =>
      match assoc "detail" fields with
      | Some d =>
          if truthy (Some d) then ToString d
          else match assoc "message" fields with
               | Some m => if truthy (Some m) then ToString m else fallback
               | None => fallback
               end
      | None =>
          match assoc "message" fields with
          | Some m => if truthy (Some m) then ToString m else fallback
          | None => fallback
          end
      end
  | _ => fallback
  end.

Definition json_headers : list (string * string) :=
  [("Content-Type", "application/json")].

Section fetch.
Variable API_BASE_URL : string.
(** The network: how a [fetch] call settles. *)
Variable fetch : Request → outcome Response.

Definition get_request (path : string) : Request :=
  {| rq_method := GET; rq_url := API_BASE_URL +:+ path;
     rq_headers := json_headers; rq_body := None |}.

Definition post_request (path : string) (body : json) : Request :=
  {| rq_method := POST; rq_url := API_BASE_URL +:+ path;
     rq_headers := json_headers; rq_body := Some body |}.

Definition get (path : string) : outcome json :=
  match fetch (get_request path) with
  | Resolved response => handleResponse response
  | Rejected e => Rejected e
  end.

Definition post (path : string) (body : json) : outcome json :=
  match fetch (post_request path body) with
  | Resolved response => handleResponse response
  | Rejected e => Rejected e
  end.
End fetch.
End json.

Arguments json num : clear implicits.
Arguments Request num : clear implicits.
Arguments Response num : clear implicits.

(** ** The analysis service *)

Section analysisService.
Context {num : Type} `{!JsNumber num}.
Variable API_BASE_URL : string.

(** The body of the request, as the service hands it to [post]. *)
Definition AnalyzeRequest_json (domain : string) (competitors : list string)
  : json num :=
  JObj [("domain", JStr domain); ("competitors", JArr (JStr <$> competitors))].

(** [startAnalysis(domain, competitors = [])]: an omitted second argument
    ([None]) takes the default. *)
Definition startAnalysis_request
    (domain : string) (competitors : option (list string)) : Request num :=
  post_request API_BASE_URL "/api/analyze"
    (AnalyzeRequest_json domain (default [] competitors)).

(** The other revision of the service in the sources,
    [startAnalysis(domain)], posts the domain alone. *)
Definition startAnalysis_domain_only_request (domain : string) : Request num :=
  post_request API_BASE_URL "/api/analyze" (JObj [("domain", JStr domain)]).

Definition getJobStatus_request (jobId : string) : Request num :=
  get_request API_BASE_URL ("/api/jobs/" +:+ jobId).

Section with_fetch.
Variable fetch : Request num → outcome (Response num).

Definition startAnalysis (domain : string) (competitors : option (list string))
  : outcome (json num) :=
  post API_BASE_URL fetch "/api/analyze"
    (AnalyzeRequest_json domain (default [] competitors)).

Definition getJobStatus (jobId : string) : outcome (json num) :=
  get API_BASE_URL fetch ("/api/jobs/" +:+ jobId).
End with_fetch.
End analysisService.

(** ** The job as it arrives *)



Section wire.
Context {num : Type} `{!JsNumber num}.



End wire.

(** ** The [useAnalysisJob] hook *)

Definition POLL_INTERVAL : Z := 1500.

(** The service calls the hook makes, with the arguments it passes. *)
Inductive Call :=
  | Call_startAnalysis (domain : string) (competitors : option (list string))
  | Call_getJobStatus (jobId : string).

(** The hook's React state and its [pollRef]. *)
Record HookState := {
  st_jobId : option string;
  st_status : option JobStatus;
  st_progress : option ProgressStep;
  st_error : option string;
  st_result : option JobResult;
  st_isLoading : bool;
  pollRef : option nat;
}.

(** An interval registered with [setInterval]: its handle, its period in
    milliseconds and the job id its callback polls. *)
Record Timer := {
  t_id : nat;
  t_period : Z;
  t_jobId : string;
}.

(** The hook together with the part of the runtime it acts on. *)
Record World := {
  hook : HookState;
  timers : list Timer;
  next_timer : nat;
  calls : list Call;
}.

Definition initial_hook : HookState :=
  {| st_jobId := None; st_status := None; st_progress := None;
     st_error := None; st_result := None; st_isLoading := false;
     pollRef := None |}.

Definition initial_world : World :=
  {| hook := initial_hook; timers := []; next_timer := 0; calls := [] |}.

Definition with_hook (f : HookState → HookState) (w : World) : World :=
  {| hook := f (hook w); timers := timers w; next_timer := next_timer w;
     calls := calls w |}.

Definition setJobId (v : option string) (h : HookState) : HookState :=
  {| st_jobId := v; st_status := st_status h; st_progress := st_progress h;
     st_error := st_error h; st_result := st_result h;
     st_isLoading := st_isLoading h; pollRef := pollRef h |}.

Definition setStatus (v : option JobStatus) (h : HookState) : HookState :=
  {| st_jobId := st_jobId h; st_status := v; st_progress := st_progress h;
     st_error := st_error h; st_result := st_result h;
     st_isLoading := st_isLoading h; pollRef := pollRef h |}.

Definition setProgress (v : option ProgressStep) (h : HookState) : HookState :=
  {| st_jobId := st_jobId h; st_status := st_status h; st_progress := v;
     st_error := st_error h; st_result := st_result h;
     st_isLoading := st_isLoading h; pollRef := pollRef h |}.

Definition setError (v : option string) (h : HookState) : HookState :=
  {| st_jobId := st_jobId h; st_status := st_status h;
     st_progress := st_progress h; st_error := v; st_result := st_result h;
     st_isLoading := st_isLoading h; pollRef := pollRef h |}.

Definition setResult (v : option JobResult) (h : HookState) : HookState :=
  {| st_jobId := st_jobId h; st_status := st_status h;
     st_progress := st_progress h; st_error := st_error h; st_result := v;
     st_isLoading := st_isLoading h; pollRef := pollRef h |}.

Definition setIsLoading (v : bool) (h : HookState) : HookState :=
  {| st_jobId := st_jobId h; st_status := st_status h;
     st_progress := st_progress h; st_error := st_error h;
     st_result := st_result h; st_isLoading := v; pollRef := pollRef h |}.

Definition setPollRef (v : option nat) (h : HookState) : HookState :=
  {| st_jobId := st_jobId h; st_status := st_status h;
     st_progress := st_progress h; st_error := st_error h;
     st_result := st_result h; st_isLoading := st_isLoading h; pollRef := v |}.

(** [clearInterval(id)] *)
Definition clearInterval (id : nat) (w : World) : World :=
  {| hook := hook w;
     timers := filter (λ t, t_id t ≠ id) (timers w);
     next_timer := next_timer w; calls := calls w |}.

Definition stopPolling (w : World) : World :=
  match pollRef (hook w) with
  | Some id => with_hook (setPollRef None) (clearInterval id w)
  | None => w
  end.

(** [job.error || "Analysis failed"] *)
Definition error_or_default (e : option string) (dflt : string) : string :=
  match e with
  | Some s => if String.eqb s "" then dflt else s
  | None => dflt
  end.

(** [err instanceof ApiError ? err.message : dflt] *)
Definition message_of (e : exn) (dflt : string) : string :=
  match e with
  | ThrownApiError a => ae_message a
  | _ => dflt
  end.

(** [poll(id)] up to its [await]: the status read goes out. *)
Definition poll_call (id : string) (w : World) : World :=
  {| hook := hook w; timers := timers w; next_timer := next_timer w;
     calls := calls w ++ [Call_getJobStatus id] |}.

(** [poll(id)] from its [await] on, once [getJobStatus] has settled. *)
Definition poll_settled (o : outcome JobResponse) (w : World) : World :=
  match o with
  | Resolved job =>
      let w1 := with_hook (setProgress (progress job))
                  (with_hook (setStatus (Some (status job))) w) in
      match status job with
      | complete =>
          stopPolling
            (with_hook (setIsLoading false)
               (with_hook (setResult (result job)) w1))
      | failed =>
          stopPolling
            (with_hook (setIsLoading false)
               (with_hook
                  (setError (Some (error_or_default (error job) "Analysis failed")))
                  w1))
      | _ => w1
      end
  | Rejected err =>
      stopPolling
        (with_hook (setIsLoading false)
           (with_hook
              (setError (Some (message_of err "Failed to fetch job status"))) w))
  end.

(** [setInterval(() => poll(jobId), ms)] followed by
    [pollRef.current = <the handle>]. *)
Definition setInterval (jobId : string) (ms : Z) (w : World) : World :=
  let id := next_timer w in
  {| hook := setPollRef (Some id) (hook w);
     timers := timers w ++ [{| t_id := id; t_period := ms; t_jobId := jobId |}];
     next_timer := S id; calls := calls w |}.

(** [start(domain)] up to its [await]. *)
Definition start_call (domain : string) (w : World) : World :=
  let w1 := stopPolling w in
  let w2 :=
    with_hook (λ h, setIsLoading true
                      (setProgress None (setResult None (setError None h)))) w1 in
  {| hook := hook w2; timers := timers w2; next_timer := next_timer w2;
     calls := calls w2 ++ [Call_startAnalysis domain None] |}.

(** [start(domain)] from its [await] on, once [startAnalysis] has settled. *)
Definition start_settled (o : outcome AnalyzeResponse) (w : World) : World :=
  match o with
  | Resolved response =>
      let w1 :=
        with_hook (λ h, setStatus (Some (ar_status response))
                          (setJobId (Some (ar_job_id response)) h)) w in
      poll_call (ar_job_id response)
        (setInterval (ar_job_id response) POLL_INTERVAL w1)
  | Rejected err =>
      with_hook (λ h, setIsLoading false
                        (setError (Some (message_of err "Failed to start analysis")) h))
        w
  end.

Definition reset (w : World) : World :=
  with_hook (λ h, setIsLoading false
                    (setResult None
                       (setError None
                          (setProgress None (setStatus None (setJobId None h))))))
    (stopPolling w).

(** The cleanup of the effect, run on unmount. *)
Definition unmount (w : World) : World := stopPolling w.

(** What the runtime does to a mounted hook between two user actions: an
    interval fires, or a status read settles.  A cleared interval never
    fires, so its tick leaves the world as it is.  Reads that overlap may
    settle in any order, and the events do not say which read an outcome
    answers: [poll] does not look at that either. *)
Inductive Event :=
  | Tick (id : nat)
  | PollSettled (o : outcome JobResponse).

Definition step (w : World) (ev : Event) : World :=
  match ev with
  | Tick id =>
      match List.find (λ t, Nat.eqb (t_id t) id) (timers w) with
      | Some t => poll_call (t_jobId t) w
      | None => w
      end
  | PollSettled o => poll_settled o w
  end.

Definition run (w : World) (evs : list Event) : World := foldl step w evs.

(** One job from submission on: [start(domain)], the service answers
    [response], then the events [evs]. *)
Definition job_run (w : World) (domain : string) (response : AnalyzeResponse)
    (evs : list Event) : World :=
  run (start_settled (Resolved response) (start_call domain w)) evs.

(** The terminal statuses. *)
Definition is_terminal (s : JobStatus) : bool :=
  match s with complete | failed => true | _ => false end.

(** An outcome on which [poll] stops the interval: a terminal status, or a
    read that failed. *)
Definition stops_polling (o : outcome JobResponse) : bool :=
  match o with
  | Resolved job => is_terminal (status job)
  | Rejected _ => true
  end.

(** The outcomes of the status reads among the events, oldest first, and
    the job records among those. *)
Definition settled (evs : list Event) : list (outcome JobResponse) :=
  omap (λ ev, match ev with PollSettled o => Some o | Tick _ => None end) evs.

Definition observed (evs : list Event) : list JobResponse :=
  omap (λ o, match o with Resolved job => Some job | Rejected _ => None end)
    (settled evs).


(** Every interval registered with the runtime is the one [pollRef] holds. *)
Definition tidy (w : World) : Prop :=
  Forall (λ t, pollRef (hook w) = Some (t_id t)) (timers w).

(** Polling is on: the interval [t] is registered and [pollRef] holds it. *)
Definition polling (t : Timer) (w : World) : Prop :=
  timers w = [t] ∧ pollRef (hook w) = Some (t_id t).

(** Polling is off: no interval is registered and [pollRef] is empty. *)
Definition idle (w : World) : Prop :=
  timers w = [] ∧ pollRef (hook w) = None.

(** How many status reads the interval [id] issues over [evs]: one for each
    of its ticks up to the first outcome on which [poll] stops. *)
Fixpoint reads_until_stop (id : nat) (evs : list Event) : nat :=
  match evs with
  | [] => 0
  | Tick i :: rest =>
      (if decide (i = id) then 1 else 0) + reads_until_stop id rest
  | PollSettled o :: rest =>
      if stops_polling o then 0 else reads_until_stop id rest
  end.

(** ** The [JobStatus] component *)

Definition progressPercent (p : ProgressStep) : Z :=
  match p with
  | resolving_company => 10
  | discovering_subreddits => 25
  | fetching_sources => 50
  | llm_extraction => 75
  | persisting => 95
  end.

(** [progress ? progressPercent[progress] : status === "complete" ? 100 : 0] *)
Definition percent (status : JobStatus) (progress : option ProgressStep) : Z :=
  match progress with
  | Some p => progressPercent p
  | None => if decide (status = complete) then 100 else 0
  end.

(** The place of an observation in the job's life: no step yet, one of the
    five steps in their fixed order, or completed with no step left. *)
Definition step_index (p : ProgressStep) : nat :=
  match p with
  | resolving_company => 1
  | discovering_subreddits => 2
  | fetching_sources => 3
  | llm_extraction => 4
  | persisting => 5
  end.

Definition stage (status : JobStatus) (progress : option ProgressStep) : nat :=
  match progress with
  | Some p => step_index p
  | None => if decide (status = complete) then 6 else 0
  end.

(** ** types/entities.ts and types/competitive.ts *)

Record Entity := {
  e_id : Z;
  e_canonical_name : string;
  e_aliases : list string;
  e_entity_type : option string;
  e_mention_count : Z;
}.

Record Mention := {
  m_id : Z;
  m_surface_form : string;
  m_snippet : option string;
  m_source_id : string;
  m_source_url : option string;
  m_subreddit : string;
  m_confidence : Qc;
}.

Record SubredditShare := {
  ss_subreddit : string;
  ss_total : nat;
  ss_counts : gmap string nat;
  ss_share : gmap string Qc;
}.

Record SentimentSummary := {
  se_target : string;
  se_positive : nat;
  se_neutral : nat;
  se_negative : nat;
}.

Record CoMentionsSummary := {
  cm_pair : string * string;
  cm_count : nat;
}.

Record AnomalySummary := {
  an_target : string;
  an_date : string;
  an_count : nat;
  an_z_score : Qc;
}.

Record CompetitiveOverview := {
  targets : list string;
  subreddit_share : list SubredditShare;
  sentiment : list SentimentSummary;
  co_mentions : list CoMentionsSummary;
  anomalies : list AnomalySummary;
}.

(** ** The [CompetitiveDashboard] component *)

(** [row.share[target] || 0], the number handed to [formatPercent]. *)
Definition displayed_share (row : SubredditShare) (target : string) : Qc :=
  match ss_share row !! target with
  | Some q => q
  | None => 0%Qc
  end.

(** ** app/page.tsx *)

Section page.
Variables Subreddit Relationship GraphData : Type.

Record Home := {
  job : World;
  subreddits : list Subreddit;
  entities : list Entity;
  relationships : list Relationship;
  graphData : option GraphData;
  competitiveOverview : option CompetitiveOverview;
}.

(** [handleAnalyze(domain, competitors)] clears the loaded data and calls
    [job.start(domain, competitors)].  The hook's [start] declares the
    single parameter [domain], so the second argument is bound to nothing. *)
Definition handleAnalyze (domain : string) (competitors : list string)
    (s : Home) : Home :=
  {| job := start_call domain (job s);
     subreddits := []; entities := []; relationships := [];
     graphData := None; competitiveOverview := None |}.
End page.

Arguments job {_ _ _} _.
Arguments handleAnalyze {_ _ _} _ _ _.

(** The form's [handleSubmit] reaches [onSubmit] only with a trimmed,
    non-empty domain; the requests a submission puts on the wire are the
    ones the service builds for the calls the hook logged. *)
Definition request_of {num : Type} `{!JsNumber num} (API_BASE_URL : string)
    (c : Call) : Request num :=
  match c with
  | Call_startAnalysis domain competitors =>
      startAnalysis_request API_BASE_URL domain competitors
  | Call_getJobStatus jobId => getJobStatus_request API_BASE_URL jobId
  end.

(** The same for the revision of the service that takes the domain alone:
    a second argument, had the hook passed one, would be ignored. *)
Definition request_of_domain_only {num : Type} `{!JsNumber num}
    (API_BASE_URL : string) (c : Call) : Request num :=
  match c with
  | Call_startAnalysis domain _ =>
      startAnalysis_domain_only_request API_BASE_URL domain
  | Call_getJobStatus jobId => getJobStatus_request API_BASE_URL jobId
  end.

(** ** Entity resolution (backend) *)

Section EntityResolver.
(** The deterministic normalization of a surface form, and the resolution
    confidence the fuzzy stage settles on when there is no exact match. *)
Variable normalize : string → string.
Variable fuzzy_confidence : list string → string → Qc.

(** A raw mention as the extraction step hands it over. *)
Record RawMention := {
  surface_form : string;
  snippet : option string;
  source_id : string;
  llm_confidence : Qc;
}.

(** Modelled from the spec: the resolver's exact-match test, which is
    backend code absent from the sources.  [pool] holds the normalized
    canonical names of the entities created so far. *)
Definition exact_match (pool : list string) (surface : string) : bool :=
  bool_decide (normalize surface ∈ pool).

(** Modelled from the spec: the resolver's second stage, backend code absent
    from the sources.  An exact normalized match yields confidence 1.0 and
    short-circuits the fuzzy step. *)
Definition resolution_confidence (pool : list string) (surface : string) : Qc :=
  if exact_match pool surface then 1%Qc else fuzzy_confidence pool surface.

(** Modelled from the spec: the confidence the backend attaches to a
    resolved mention (absent from the sources), the product of the two
    stages' confidences. *)
Definition mention_confidence (pool : list string) (raw : RawMention) : Qc :=
  (llm_confidence raw * resolution_confidence pool (surface_form raw))%Qc.

(** Modelled from the spec: the [Mention] the API serves for a resolved raw
    mention (the serializer is absent from the sources). *)
Definition resolved_mention (pool : list string) (id : Z) (subreddit : string)
    (url : option string) (raw : RawMention) : Mention :=
  {| m_id := id; m_surface_form := surface_form raw; m_snippet := snippet raw;
     m_source_id := source_id raw; m_source_url := url;
     m_subreddit := subreddit;
     m_confidence := mention_confidence pool raw |}.
End EntityResolver.

(** ** Competitive analytics (backend) *)

(** A persisted mention of a target: which target, in which subreddit, in
    which source. *)
Record TargetMention := {
  tm_target : string;
  tm_subreddit : string;
  tm_source : string;
}.

(** Modelled from the spec: the raw mention count of a target in a
    subreddit (the analytics engine is absent from the sources). *)
Definition mention_count (mentions : list TargetMention)
    (subreddit target : string) : nat :=
  length (filter (λ m, tm_subreddit m = subreddit ∧ tm_target m = target) mentions).

(** Modelled from the spec: the total of the mentions in a subreddit, over
    the mentions restricted to the targets (the analytics engine is absent
    from the sources). *)
Definition total_mentions (tgts : list string) (mentions : list TargetMention)
    (subreddit : string) : nat :=
  length (filter (λ m, tm_subreddit m = subreddit ∧ tm_target m ∈ tgts) mentions).

Definition Qc_of_nat (n : nat) : Qc := Qc_of_Z (Z.of_nat n).

(** Modelled from the spec: share = count_target / total_mentions_in_subreddit,
    0 when the total is 0 (the analytics engine is absent from the sources). *)
Definition share_of (count total : nat) : Qc :=
  if decide (total = 0%nat) then 0%Qc
  else (Qc_of_nat count / Qc_of_nat total)%Qc.

(** Modelled from the spec: one row of the share-of-voice table (the
    analytics engine is absent from the sources). *)
Definition share_of_voice (tgts : list string) (mentions : list TargetMention)
    (subreddit : string) : SubredditShare :=
  let total := total_mentions tgts mentions subreddit in
  {| ss_subreddit := subreddit;
     ss_total := total;
     ss_counts :=
       list_to_map ((λ t, (t, mention_count mentions subreddit t)) <$> tgts);
     ss_share :=
       list_to_map
         ((λ t, (t, share_of (mention_count mentions subreddit t) total)) <$> tgts) |}.

Definition Qc_sum (l : list Qc) : Qc := foldr Qcplus 0%Qc l.

(** The unordered pairs of a list, each written once, in list order. *)
Fixpoint pairs_of (l : list string) : list (string * string) :=
  match l with
  | [] => []
  | a :: rest => (pair a <$> rest) ++ pairs_of rest
  end.

Definition appears_in (mentions : list TargetMention) (source target : string)
  : Prop :=
  Exists (λ m, tm_source m = source ∧ tm_target m = target) mentions.

#[global] Instance appears_in_dec mentions source target :
  Decision (appears_in mentions source target).
Proof. unfold appears_in. apply _. Defined.

Definition sources_of (mentions : list TargetMention) : list string :=
  remove_dups (tm_source <$> mentions).

(** [counter[pair] += 1] *)
Definition bump (counter : gmap (string * string) nat) (p : string * string)
  : gmap (string * string) nat :=
  <[p := S (default 0%nat (counter !! p))]> counter.

(** Modelled from the spec: for each unordered pair of targets appearing in
    the same source, increment a pair counter (the analytics engine is
    absent from the sources). *)
Definition count_source (tgts : list string) (mentions : list TargetMention)
    (counter : gmap (string * string) nat) (source : string)
  : gmap (string * string) nat :=
  foldl bump counter
    (pairs_of (filter (λ t, appears_in mentions source t) tgts)).

Definition pair_counter (tgts : list string) (mentions : list TargetMention)
  : gmap (string * string) nat :=
  foldl (count_source tgts mentions) ∅ (sources_of mentions).

Definition by_count_desc (x y : CoMentionsSummary) : Prop :=
  (cm_count y ≤ cm_count x)%nat.

#[global] Instance by_count_desc_dec : RelDecision by_count_desc.
Proof. intros x y. unfold by_count_desc. apply _. Defined.

(** Modelled from the spec: the co-mention list, sorted descending by count
    (the analytics engine is absent from the sources). *)
Definition co_mention_list (tgts : list string) (mentions : list TargetMention)
  : list CoMentionsSummary :=
  merge_sort by_count_desc
    ((λ kv, {| cm_pair := kv.1; cm_count := kv.2 |})
       <$> map_to_list (pair_counter tgts mentions)).

(** The count the list reports for the unordered pair of [a] and [b]: the
    entry written either way round, 0 when there is none. *)
Definition is_pair (a b : string) (e : CoMentionsSummary) : Prop :=
  cm_pair e = (a, b) ∨ cm_pair e = (b, a).

#[global] Instance is_pair_dec a b e : Decision (is_pair a b e).
Proof. unfold is_pair. apply _. Defined.

Definition co_count (out : list CoMentionsSummary) (a b : string) : nat :=
  match List.find (λ e, bool_decide (is_pair a b e)) out with
  | Some e => cm_count e
  | None => 0
  end.

(** The number of sources in which both targets appear. *)
Definition sources_with_both (mentions : list TargetMention) (a b : string)
  : nat :=
  length (filter (λ s, appears_in mentions s a ∧ appears_in mentions s b)
            (sources_of mentions)).

(** ** More of lib/format.ts *)

From Stdlib Require Import Ascii.

(** The characters [String.prototype.trim] strips, among the code units a
    character of [string] can stand for: TAB, LF, VT, FF, CR, SPACE and
    NBSP. *)
Definition is_js_space (c : Ascii.ascii) : bool :=
  let n := Ascii.nat_of_ascii c in
  ((9 <=? n) && (n <=? 13) || (n =? 32) || (n =? 160))%nat.

Fixpoint trimStart (s : string) : string :=
  match s with
  | EmptyString => ""
  | String c rest => if is_js_space c then trimStart rest else s
  end.

Fixpoint trimEnd (s : string) : string :=
  match s with
  | EmptyString => ""
  | String c rest =>
      match trimEnd rest with
      | EmptyString => if is_js_space c then "" else String c ""
      | kept => String c kept
      end
  end.

(** [str.trim()] *)
Definition trim (s : string) : string := trimEnd (trimStart s).

(** The character class [[A-Z]] of a regular expression without flags. *)
Definition is_upper_AZ (c : Ascii.ascii) : bool :=
  let n := Ascii.nat_of_ascii c in ((65 <=? n) && (n <=? 90))%nat.

Definition is_lower_az (c : Ascii.ascii) : bool :=
  let n := Ascii.nat_of_ascii c in ((97 <=? n) && (n <=? 122))%nat.

(** The line terminators a character of [string] can stand for, which [.]
    does not match: LF and CR. *)
Definition is_line_terminator (c : Ascii.ascii) : bool :=
  let n := Ascii.nat_of_ascii c in ((n =? 10) || (n =? 13))%nat.

(** [type.replace(/([A-Z])/g, " $1")] *)
Fixpoint space_before_capitals (s : string) : string :=
  match s with
  | EmptyString => ""
  | String c rest =>
      if is_upper_AZ c
      then String " "%char (String c (space_before_capitals rest))
      else String c (space_before_capitals rest)
  end.

Section format_case.
(** [String.prototype.toUpperCase], as the runtime provides it. *)
Variable toUpperCase : string → string.

(** [s.replace(/^./, (s) => s.toUpperCase())] *)
Definition upper_first (s : string) : string :=
  match s with
  | EmptyString => ""
  | String c rest =>
      if is_line_terminator c then s else toUpperCase (String c "") +:+ rest
  end.

Definition formatRelationshipType (type : string) : string :=
  trim (upper_first (space_before_capitals type)).
End format_case.

(** ** The analysis form *)

(** [str.split(sep)] for a separator of one character. *)
Fixpoint str_split (sep : Ascii.ascii) (s : string) : list string :=
  match s with
  | EmptyString => [""]
  | String c rest =>
      if Ascii.eqb c sep then "" :: str_split sep rest
      else match str_split sep rest with
           | piece :: pieces => String c piece :: pieces
           | [] => [String c ""]
           end
  end.

(** [handleSubmit] of the form, for the field contents [domain] and
    [competitorsInput]: the arguments it calls [onSubmit] with, or [None]
    when it does not call it. *)
Definition handleSubmit (domain competitorsInput : string)
  : option (string * list string) :=
  let trimmed := trim domain in
  let competitors :=
    filter (λ value, (0 < String.length value)%nat)
      (trim <$> str_split ","%char competitorsInput) in
  if String.eqb trimmed "" then None else Some (trimmed, competitors).

(** ** What the [JobStatus] component renders *)

Definition isRunning (status : JobStatus) : bool :=
  bool_decide (status = running) || bool_decide (status = queued).

Definition isComplete (status : JobStatus) : bool :=
  bool_decide (status = complete).

Definition isFailed (status : JobStatus) : bool :=
  bool_decide (status = failed).

(** A [string | null] used as a condition. *)
Definition nonempty (s : option string) : bool :=
  match s with
  | Some v => negb (String.eqb v "")
  | None => false
  end.

Definition progressLabels (p : ProgressStep) : string :=
  match p with
  | resolving_company => "Resolving company name..."
  | discovering_subreddits => "Discovering relevant subreddits..."
  | fetching_sources => "Fetching posts and comments..."
  | llm_extraction => "Extracting entities and relationships..."
  | persisting => "Saving results..."
  end.

(** What the component puts on the screen for the props [status], [progress]
    and [error]; [onRetry] is always passed by the page.  The component
    returns [null] for a null status. *)
Record StatusPanel := {
  sp_running_tag : bool;
  sp_complete_tag : bool;
  sp_failed_tag : bool;
  sp_retry_button : bool;
  sp_bar_percent : option Z;
  sp_bar_label : option string;
  sp_success_line : bool;
  sp_error_text : option string;
}.

Definition JobStatus_render (status : option JobStatus)
    (progress : option ProgressStep) (error : option string)
  : option StatusPanel :=
  match status with
  | None => None
  | Some s =>
      Some {| sp_running_tag := isRunning s;
              sp_complete_tag := isComplete s;
              sp_failed_tag := isFailed s;
              sp_retry_button := isFailed s;
              sp_bar_percent :=
                if isRunning s then Some (percent s progress) else None;
              sp_bar_label :=
                if isRunning s
                then Some match progress with
                          | Some p => progressLabels p
                          | None => "Initializing..."
                          end
                else None;
              sp_success_line := isComplete s;
              sp_error_text :=
                if isFailed s && nonempty error then error else None |}
  end.

(** The page mounts the component under
    [job.status === "running" || job.status === "queued" || job.error]. *)
Definition status_panel (h : HookState) : option StatusPanel :=
  if bool_decide (st_status h = Some running)
     || bool_decide (st_status h = Some queued)
     || nonempty (st_error h)
  then JobStatus_render (st_status h) (st_progress h) (st_error h)
  else None.

(** ** The [useEntityDetail] hook *)

Record EntityRelationshipSummary := {
  ers_type : string;
  ers_target : string;
  ers_count : Z;
}.

Record EntityDetail := {
  ed_id : Z;
  ed_canonical_name : string;
  ed_aliases : list string;
  ed_entity_type : option string;
  ed_mentions : list Mention;
  ed_relationships : list EntityRelationshipSummary;
}.

Record EntityDetailState := {
  eds_entity : option EntityDetail;
  eds_isLoading : bool;
  eds_error : option string;
}.

(** [fetch(entityId)] up to its [await]. *)
Definition fetch_call (entityId : Z) (s : EntityDetailState)
  : EntityDetailState :=
  {| eds_entity := eds_entity s; eds_isLoading := true; eds_error := None |}.

(** [fetch(entityId)] from its [await] on. *)
Definition fetch_settled (o : outcome EntityDetail) (s : EntityDetailState)
  : EntityDetailState :=
  match o with
  | Resolved detail =>
      {| eds_entity := Some detail; eds_isLoading := false;
         eds_error := eds_error s |}
  | Rejected err =>
      {| eds_entity := None; eds_isLoading := false;
         eds_error := Some (message_of err "Failed to fetch entity details") |}
  end.

Definition clear (s : EntityDetailState) : EntityDetailState :=
  {| eds_entity := None; eds_isLoading := false; eds_error := None |}.

(** The [EntityDetail] modal renders unless
    [!entity && !isLoading && !error]. *)
Definition modal_open (s : EntityDetailState) : bool :=
  negb (bool_decide (eds_entity s = None) && negb (eds_isLoading s)
        && negb (nonempty (eds_error s))).

(** What the user does with the detail modal: select an entity whose fetch
    settles with [o] before anything else happens, or close the modal. *)
Inductive DetailAction :=
  | Select (entityId : Z) (o : outcome EntityDetail)
  | Close.

Definition detail_step (s : EntityDetailState) (a : DetailAction)
  : EntityDetailState :=
  match a with
  | Select entityId o => fetch_settled o (fetch_call entityId s)
  | Close => clear s
  end.

(** ** The entity list and the graph view *)

Inductive TagVariant :=
  | tv_default | tv_primary | tv_success | tv_warning | tv_danger | tv_info.

Record GraphNode := {
  gn_id : Z;
  gn_name : string;
  gn_type : option string;
}.

Record GraphEdge := {
  ge_source : Z;
  ge_target : Z;
  ge_type : string;
  ge_confidence : Qc;
  ge_source_id : option string;
}.

Record GraphData := {
  gd_nodes : list GraphNode;
  gd_edges : list GraphEdge;
}.

Section type_case.
(** [String.prototype.toLowerCase], as the runtime provides it. *)
Variable toLowerCase : string → string.

(** [getEntityTypeVariant] of the entity list. *)
Definition getEntityTypeVariant (type : option string) : TagVariant :=
  match type with
  | None => tv_default
  | Some t =>
      let l := toLowerCase t in
      if String.eqb l "company" || String.eqb l "organization" then tv_primary
      else if String.eqb l "person" then tv_info
      else tv_default
  end.

(** [getNodeColor] of the graph view. *)
Definition getNodeColor (type : option string) : string :=
  match type with
  | None => "#6b7280"
  | Some t =>
      let l := toLowerCase t in
      if String.eqb l "company" || String.eqb l "organization" then "#3b82f6"
      else if String.eqb l "person" then "#10b981"
      else "#6b7280"
  end.
End type_case.

(** [e.source === hoveredNode || e.target === hoveredNode] *)
Definition incident (hoveredNode : Z) (e : GraphEdge) : Prop :=
  ge_source e = hoveredNode ∨ ge_target e = hoveredNode.

#[global] Instance incident_dec hoveredNode e : Decision (incident hoveredNode e).
Proof. unfold incident. apply _. Defined.

(** The members of the set [highlightedEdges]: the elements of
    [data.edges.filter(...).map((_, i) => i)]. *)
Definition highlightedEdges (hoveredNode : option Z) (data : option GraphData)
  : list nat :=
  match hoveredNode, data with
  | Some h, Some d => imap (λ i _, i) (filter (incident h) (gd_edges d))
  | _, _ => []
  end.

(** [isHighlighted] of the edge drawn at index [i]. *)
Definition edge_isHighlighted (hoveredEdge : option nat) (hoveredNode : option Z)
    (data : option GraphData) (i : nat) : bool :=
  bool_decide (hoveredEdge = Some i)
  || (bool_decide (hoveredNode ≠ None)
      && bool_decide (i ∈ highlightedEdges hoveredNode data)).

(** The text under a node:
    [node.name.length > 15 ? node.name.slice(0, 15) + "..." : node.name]. *)
Definition node_label (name : string) : string :=
  if (15 <? String.length name)%nat then slice0 name 15 +:+ "..." else name.

(** ** More of app/page.tsx *)

Section page_data.
Context {S R G : Type}.

(** [job.result !== null] *)
Definition hasResults (s : Home S R G) : bool :=
  bool_decide (st_result (hook (job s)) ≠ None).

(** The hook moves on under a page whose own state stays as it is. *)
Definition with_job (f : World → World) (s : Home S R G) : Home S R G :=
  {| job := f (job s); subreddits := subreddits _ _ _ s;
     entities := entities _ _ _ s; relationships := relationships _ _ _ s;
     graphData := graphData _ _ _ s;
     competitiveOverview := competitiveOverview _ _ _ s |}.

(** The page's state together with its [isLoadingData] flag. *)
Record Page := {
  page_home : Home S R G;
  isLoadingData : bool;
}.

(** [fetchAllData()] up to its [await]. *)
Definition fetchAllData_call (p : Page) : Page :=
  {| page_home := page_home p; isLoadingData := true |}.

(** [fetchAllData()] from its [await] on: [Promise.all] fulfils when all
    five requests do, and the [catch] only logs. *)
Definition fetchAllData_settled
    (subs : outcome (list S)) (ents : outcome (list Entity))
    (rels : outcome (list R)) (graph : outcome G)
    (competitive : outcome CompetitiveOverview) (p : Page) : Page :=
  match subs, ents, rels, graph, competitive with
  | Resolved s, Resolved e, Resolved r, Resolved g, Resolved c =>
      {| page_home :=
           {| job := job (page_home p); subreddits := s; entities := e;
              relationships := r; graphData := Some g;
              competitiveOverview := Some c |};
         isLoadingData := false |}
  | _, _, _, _, _ => {| page_home := page_home p; isLoadingData := false |}
  end.
End page_data.

(** ** A [start] that is still waiting *)

(** [start] awaits [startAnalysis] and goes on when it settles, without
    looking at what happened to the hook in between: a [reset], another
    [start] or the unmount cleanup.  So the settling of a pending
    [startAnalysis] call is one more thing that can happen to the hook,
    beside the interval's ticks and the status reads that settle. *)
Inductive HookEvent :=
  | Runtime (ev : Event)
  | StartSettled (o : outcome AnalyzeResponse).

Definition hook_step (w : World) (ev : HookEvent) : World :=
  match ev with
  | Runtime ev => step w ev
  | StartSettled o => start_settled o w
  end.

Definition hook_run (w : World) (evs : list HookEvent) : World :=
  foldl hook_step w evs.

(** A pending [startAnalysis] call resolves: [start] resumes in its [try]
    block. *)
Definition start_resumes (ev : HookEvent) : bool :=
  match ev with
  | StartSettled (Resolved _) => true
  | _ => false
  end.

(** * Properties *)

(** ** The progress bar *)

Lemma percent_mono_stage s1 p1 s2 p2 :
  (stage s1 p1 ≤ stage s2 p2)%nat → percent s1 p1 ≤ percent s2 p2.
Proof.
  unfold stage, percent.
  destruct p1 as [[]|], p2 as [[]|]; simpl; repeat case_decide; simpl; lia.
Qed.

(** C5, as amended: the percentage of a progress step is strictly
    increasing along the fixed sequence resolving_company,
    discovering_subreddits, fetching_sources, llm_extraction, persisting
    (10, 25, 50, 75, 95).  An observation that reports a step maps to that
    step's percentage whatever its status, and one that reports none maps
    to 100 when the status is complete and to 0 otherwise: the status
    complete maps to 100 exactly when no step is reported with it.  Every
    step's percentage is below that 100, so over any sequence of
    observations that moves forward through the fixed sequence the
    percentage never decreases. *)
Theorem displayed_progress_monotone :
  (∀ p q, (step_index p < step_index q)%nat →
          progressPercent p < progressPercent q)
  ∧ step_index <$> all_ProgressStep = [1; 2; 3; 4; 5]%nat
  ∧ progressPercent <$> all_ProgressStep = [10; 25; 50; 75; 95]
  ∧ (∀ s p, percent s (Some p) = progressPercent p)
  ∧ (∀ s, percent s None = if decide (s = complete) then 100 else 0)
  ∧ (∀ progress, percent complete progress = 100 ↔ progress = None)
  ∧ (∀ s progress, 0 ≤ percent s progress ≤ 100)
  ∧ (∀ s p, percent s (Some p) < percent complete None)
  ∧ (∀ obs : list (JobStatus * option ProgressStep),
       Sorted (λ a b, (stage a.1 a.2 ≤ stage b.1 b.2)%nat) obs →
       Sorted Z.le ((λ o, percent o.1 o.2) <$> obs)).
Proof.
  split_and!; try reflexivity.
  - intros [] []; simpl; lia.
  - intros [[]|]; simpl; split; (done || lia).
  - intros s [[]|]; simpl; try case_decide; lia.
  - intros s []; simpl; lia.
  - intros obs. apply Sorted_fmap.
    intros [s1 p1] [s2 p2]; simpl. apply percent_mono_stage.
Qed.

Lemma displayed_progress_monotone_witness :
  Sorted Z.le
    ((λ o, percent o.1 o.2) <$>
       [(queued, None); (running, Some resolving_company);
        (running, Some fetching_sources); (running, Some persisting);
        (complete, Some persisting); (complete, None)]).
Proof.
  apply displayed_progress_monotone.
  repeat constructor; simpl; lia.
Defined.

(** C5, as stated, fails on a completed job that still reports its last
    step: the status complete then maps to that step's 95, not to 100. *)
Lemma complete_with_step_below_100_counterexample :
  percent complete (Some persisting) = 95
  ∧ percent complete (Some persisting) ≠ 100
  ∧ ¬ (∀ progress, percent complete progress = 100).
Proof.
  split_and!; [done..|]. intros H. by specialize (H (Some persisting)).
Qed.

(** ** Truncation *)

Lemma length_append (s t : string) :
  String.length (s +:+ t) = (String.length s + String.length t)%nat.
Proof. induction s as [|c s IH]; simpl; [done|by rewrite IH]. Qed.

Lemma length_substring0 (n : nat) (s : string) :
  (n ≤ String.length s)%nat → String.length (String.substring 0 n s) = n.
Proof.
  revert s; induction n as [|n IH]; intros [|c s]; simpl; intros Hn;
    try done; try lia.
  rewrite IH; lia.
Qed.

Lemma slice0_prefix (s : string) (e : Z) :
  0 ≤ e ≤ Z.of_nat (String.length s) →
  slice0 s e = String.substring 0 (Z.to_nat e) s.
Proof.
  intros [H0 Hlen]. unfold slice0.
  destruct (Z.ltb_spec e 0); [lia|]. by rewrite Z.min_l.
Qed.

(** C9: for every string and every [maxLen >= 3], [truncate] returns the
    string unchanged when it is at most [maxLen] long, and otherwise its
    first [maxLen - 3] characters followed by three dots, a string of
    length exactly [maxLen]; either way the result is at most [maxLen]
    long. *)
Theorem truncate_spec (str : string) (maxLen : Z) :
  3 ≤ maxLen →
  (Z.of_nat (String.length str) ≤ maxLen → truncate str maxLen = str)
  ∧ (maxLen < Z.of_nat (String.length str) →
     truncate str maxLen
       = String.substring 0 (Z.to_nat (maxLen - 3)) str +:+ "..."
     ∧ Z.of_nat (String.length (truncate str maxLen)) = maxLen)
  ∧ Z.of_nat (String.length (truncate str maxLen)) ≤ maxLen.
Proof.
  intros Hmax.
  assert (Hlong : maxLen < Z.of_nat (String.length str) →
     truncate str maxLen
       = String.substring 0 (Z.to_nat (maxLen - 3)) str +:+ "..."
     ∧ Z.of_nat (String.length (truncate str maxLen)) = maxLen).
  { intros Hlt. unfold truncate.
    destruct (Z.leb_spec (Z.of_nat (String.length str)) maxLen); [lia|].
    rewrite slice0_prefix by lia. split; [done|].
    rewrite length_append, length_substring0 by lia. simpl. lia. }
  repeat split; try (apply Hlong; assumption).
  - intros Hle. unfold truncate.
    by destruct (Z.leb_spec (Z.of_nat (String.length str)) maxLen); [|lia].
  - destruct (Z.le_gt_cases (Z.of_nat (String.length str)) maxLen) as [Hle|Hgt].
    + unfold truncate.
      by destruct (Z.leb_spec (Z.of_nat (String.length str)) maxLen); [|lia].
    + destruct (Hlong ltac:(lia)) as [_ ->]. lia.
Qed.

Lemma truncate_spec_witness :
  truncate "ab" 5 = "ab"
  ∧ truncate "a long evidence snippet" 10 = "a long ..."
  ∧ Z.of_nat (String.length (truncate "a long evidence snippet" 10)) ≤ 10.
Proof.
  destruct (truncate_spec "ab" 5 ltac:(lia)) as (Hshort & _ & _).
  destruct (truncate_spec "a long evidence snippet" 10 ltac:(lia))
    as (_ & Hlong & Hle).
  split; [apply Hshort; simpl; lia|].
  split; [|exact Hle].
  destruct (Hlong ltac:(simpl; lia)) as [-> _]. reflexivity.
Defined.

(** ** The API client *)

Section apiClient_facts.
Context {num : Type} `{!JsNumber num}.
Implicit Types response : Response num.

Lemma handleResponse_ok response :
  ok response = true →
  handleResponse response
  = match rs_json response with
    | Some v => Resolved v
    | None => Rejected SyntaxError
    end.
Proof. intros Hok. unfold handleResponse. by rewrite Hok. Qed.

Lemma handleResponse_not_ok response :
  ok response = false →
  handleResponse response
  = Rejected (ThrownApiError
      {| ae_status := rs_status response;
         ae_statusText := rs_statusText response;
         ae_message := reported_message response |}).
Proof.
  intros Hok. unfold handleResponse. rewrite Hok. cbn [negb].
  do 2 f_equal. unfold new_ApiError. f_equal.
  unfold error_message, reported_message, prop, js_or.
  destruct (rs_json response) as [[| | | | |fields]|]; try done.
  destruct (assoc "detail" fields) as [d|] eqn:Hd.
  - destruct (truthy (Some d)) eqn:Ht; [by rewrite Ht|].
    destruct (assoc "message" fields) as [m|]; [|done].
    by destruct (truthy (Some m)) eqn:Hm.
  - change (truthy None) with false; cbv iota.
    destruct (assoc "message" fields) as [m|]; [|done].
    by destruct (truthy (Some m)) eqn:Hm.
Qed.

(** C10, as amended: [get] and [post] settle as [handleResponse] does on
    the response [fetch] delivers.  A value is returned exactly when the
    response is ok and its body parses, and it is the parsed body; an ok
    response whose body does not parse rejects with the parser's error.  A
    response that is not ok always rejects with an [ApiError] that carries
    the status, the status text and, as message, the body's [detail] or
    [message] field, or the status line when the body is absent, does not
    parse or has neither. *)
Theorem handleResponse_outcome response :
  (∀ base fetch path,
     fetch (get_request base path) = Resolved response →
     get base fetch path = handleResponse response)
  ∧ (∀ base fetch path body,
       fetch (post_request base path body) = Resolved response →
       post base fetch path body = handleResponse response)
  ∧ (∀ v, handleResponse response = Resolved v
          ↔ ok response = true ∧ rs_json response = Some v)
  ∧ (ok response = true → rs_json response = None →
     handleResponse response = Rejected SyntaxError)
  ∧ (ok response = false →
     handleResponse response
     = Rejected (ThrownApiError
         {| ae_status := rs_status response;
            ae_statusText := rs_statusText response;
            ae_message := reported_message response |})
     ∧ (rs_json response = None →
        reported_message response
        = pretty (rs_status response) +:+ " " +:+ rs_statusText response)).
Proof.
  split_and!.
  - intros base fetch path Hf. unfold get. by rewrite Hf.
  - intros base fetch path body Hf. unfold post. by rewrite Hf.
  - intros v. split.
    + destruct (ok response) eqn:Hok.
      * rewrite handleResponse_ok by done.
        destruct (rs_json response); naive_solver.
      * by rewrite handleResponse_not_ok.
    + intros [Hok Hv]. by rewrite handleResponse_ok, Hv.
  - intros Hok Hv. by rewrite handleResponse_ok, Hv.
  - intros Hok. split; [by apply handleResponse_not_ok|].
    intros Hv. unfold reported_message. by rewrite Hv.
Qed.
End apiClient_facts.

Lemma handleResponse_outcome_witness :
  get "http://localhost:8000"
      (λ _, Resolved {| rs_status := 422; rs_statusText := "Unprocessable Entity";
                        rs_json := Some (JObj [("detail", JStr "domain required")]) |})
      "/api/jobs/j1"
  = Rejected (ThrownApiError
      {| ae_status := 422; ae_statusText := "Unprocessable Entity";
         ae_message := "domain required" |})
  ∧ handleResponse (num := Z)
      {| rs_status := 200; rs_statusText := "OK";
         rs_json := Some (JObj [("job_id", JStr "j1")]) |}
    = Resolved (JObj [("job_id", JStr "j1")]).
Proof.
  split.
  - pose proof (handleResponse_outcome (num := Z)
      {| rs_status := 422; rs_statusText := "Unprocessable Entity";
         rs_json := Some (JObj [("detail", JStr "domain required")]) |})
      as (Hget & _ & _ & _ & Herr).
    rewrite (Hget _ _ _ eq_refl). exact (proj1 (Herr eq_refl)).
  - apply (handleResponse_outcome (num := Z)). split; reflexivity.
Defined.

(** C10, as stated, fails on an ok response whose body is not JSON: no
    value is returned although the status is ok, and what is thrown is the
    parser's error, not an [ApiError]. *)
Lemma get_post_ok_unparsable_counterexample :
  let response : Response Z :=
    {| rs_status := 200; rs_statusText := "OK"; rs_json := None |} in
  ok response = true
  ∧ get "http://localhost:8000" (λ _, Resolved response) "/api/jobs/j1"
    = Rejected SyntaxError
  ∧ post "http://localhost:8000" (λ _, Resolved response) "/api/analyze"
      (JObj [("domain", JStr "openai.com")])
    = Rejected SyntaxError
  ∧ (∀ v, get "http://localhost:8000" (λ _, Resolved response) "/api/jobs/j1"
          ≠ Resolved v).
Proof. repeat split; done. Qed.

(** ** The job types *)

Section job_types_facts.
Context {num : Type} `{!JsNumber num}.




End job_types_facts.


(** ** Submitting an analysis *)

Lemma handleAnalyze_calls {S R G : Type} (domain : string)
    (competitors : list string) (s : Home S R G) :
  calls (job (handleAnalyze domain competitors s))
  = (calls (job s) ++ [Call_startAnalysis domain None])%list.
Proof.
  unfold handleAnalyze, start_call, stopPolling; simpl.
  by destruct (pollRef (hook (job s))).
Qed.

(** C1 does not hold of the code: for the domain "openai.com" and the
    competitor "anthropic.com" the one request the submission issues is
    POST /api/analyze with an empty competitors array (with the domain
    alone under the other revision of the service), because the hook's
    [start] hands [startAnalysis] nothing but the domain. *)
Lemma handleAnalyze_competitors_not_sent :
  let s : Home unit unit unit :=
    handleAnalyze "openai.com" ["anthropic.com"]
      {| job := initial_world; subreddits := []; entities := [];
         relationships := []; graphData := None;
         competitiveOverview := None |} in
  request_of (num := Z) "http://localhost:8000" <$> calls (job s)
  = [ {| rq_method := POST;
         rq_url := "http://localhost:8000/api/analyze";
         rq_headers := [("Content-Type", "application/json")];
         rq_body := Some (JObj [("domain", JStr "openai.com");
                                ("competitors", JArr [])]) |} ]
  ∧ request_of_domain_only (num := Z) "http://localhost:8000" <$> calls (job s)
    = [ {| rq_method := POST;
           rq_url := "http://localhost:8000/api/analyze";
           rq_headers := [("Content-Type", "application/json")];
           rq_body := Some (JObj [("domain", JStr "openai.com")]) |} ]
  ∧ AnalyzeRequest_json (num := Z) "openai.com" []
    ≠ AnalyzeRequest_json "openai.com" ["anthropic.com"].
Proof. repeat split; done. Qed.

(** ** Mention confidence *)

Lemma Qc_unit_interval_mult (a b : Qc) :
  (0 ≤ a ≤ 1)%Qc → (0 ≤ b ≤ 1)%Qc → (0 ≤ a * b ≤ 1)%Qc.
Proof.
  intros [Ha0 Ha1] [Hb0 Hb1]. split.
  - rewrite <-(Qcmult_0_l b). by apply Qcmult_le_compat_r.
  - trans (1 * b)%Qc; [by apply Qcmult_le_compat_r|].
    by rewrite Qcmult_1_l.
Qed.

Lemma Qc_mult_fixed (a r : Qc) : (a * r)%Qc = a ↔ a = 0%Qc ∨ r = 1%Qc.
Proof.
  split.
  - intros H. assert (Hz : (a * (r - 1))%Qc = 0%Qc).
    { replace (a * (r - 1))%Qc with (a * r - a)%Qc by ring. rewrite H. ring. }
    apply Qcmult_integral in Hz as [?|Hr]; [by left|right].
    rewrite <-(Qcplus_0_l 1), <-Hr. ring.
  - intros [->| ->]; ring.
Qed.

(** C2: the confidence exposed for a resolved mention is
    [llm_confidence * resolution_confidence]; it lies in [0,1] whenever both
    factors do; and when the normalized surface form exact-matches an
    existing canonical name the resolution confidence is 1 and the exposed
    confidence is [llm_confidence] itself.  (Equality with [llm_confidence]
    holds otherwise only for a factor that is 0 or a resolution confidence
    of 1.) *)
Theorem mention_confidence_product
    (normalize : string → string) (fuzzy_confidence : list string → string → Qc)
    (pool : list string) (id : Z) (subreddit : string) (url : option string)
    (raw : RawMention) :
  let res := resolution_confidence normalize fuzzy_confidence pool
               (surface_form raw) in
  let shown := m_confidence (resolved_mention normalize fuzzy_confidence
                               pool id subreddit url raw) in
  shown = (llm_confidence raw * res)%Qc
  ∧ ((0 ≤ llm_confidence raw ≤ 1)%Qc → (0 ≤ res ≤ 1)%Qc → (0 ≤ shown ≤ 1)%Qc)
  ∧ (normalize (surface_form raw) ∈ pool →
     res = 1%Qc ∧ shown = llm_confidence raw)
  ∧ (shown = llm_confidence raw ↔ llm_confidence raw = 0%Qc ∨ res = 1%Qc).
Proof.
  intros res shown. subst res shown. simpl. unfold mention_confidence.
  split_and!.
  - done.
  - apply Qc_unit_interval_mult.
  - intros Hin. unfold resolution_confidence, exact_match.
    rewrite bool_decide_eq_true_2 by done. split; [done|ring].
  - apply Qc_mult_fixed.
Qed.

Lemma mention_confidence_product_witness :
  let raw := {| surface_form := "openai"; snippet := None;
                source_id := "t3_abc"; llm_confidence := Q2Qc (4 # 5) |} in
  let shown := m_confidence (resolved_mention id (λ _ _, Q2Qc (1 # 2))
                               ["openai"] 7 "technology" None raw) in
  shown = Q2Qc (4 # 5) ∧ (0 ≤ shown ≤ 1)%Qc.
Proof.
  intros raw shown.
  destruct (mention_confidence_product id (λ _ _, Q2Qc (1 # 2))
              ["openai"] 7 "technology" None raw)
    as (_ & Hunit & Hexact & _).
  assert (Hin : id (surface_form raw) ∈ ["openai"]) by constructor.
  destruct (Hexact Hin) as [Hres Hshown].
  split; [exact Hshown|].
  apply Hunit.
  - split; by vm_compute.
  - rewrite Hres. split; by vm_compute.
Defined.

(** ** Polling *)

Lemma run_cons (w : World) (ev : Event) (evs : list Event) :
  run w (ev :: evs) = run (step w ev) evs.
Proof. done. Qed.

Lemma run_app (w : World) (evs1 evs2 : list Event) :
  run w (evs1 ++ evs2)%list = run (run w evs1) evs2.
Proof. apply foldl_app. Qed.

Lemma stopPolling_tidy (w : World) :
  tidy w →
  timers (stopPolling w) = [] ∧ pollRef (hook (stopPolling w)) = None
  ∧ calls (stopPolling w) = calls w ∧ next_timer (stopPolling w) = next_timer w.
Proof.
  unfold tidy, stopPolling. intros Htidy.
  destruct (pollRef (hook w)) as [id|] eqn:Href; simpl.
  - split_and!; try done.
    induction Htidy as [|t ts Ht _ IH]; [done|].
    rewrite filter_cons_False; [done|]. naive_solver.
  - split_and!; try done. by destruct Htidy.
Qed.

Lemma poll_settled_polling (t : Timer) (o : outcome JobResponse) (w : World) :
  polling t w →
  calls (poll_settled o w) = calls w
  ∧ if stops_polling o then idle (poll_settled o w)
    else polling t (poll_settled o w).
Proof.
  intros [Ht Href]. unfold poll_settled, stops_polling, stopPolling.
  destruct o as [job|err]; [destruct (status job)|]; simpl;
    rewrite ?Href; simpl; rewrite ?Ht; simpl;
    unfold polling, idle; simpl; rewrite ?Ht, ?Href;
    rewrite ?filter_cons_False, ?filter_nil by naive_solver; done.
Qed.

Lemma poll_settled_idle (o : outcome JobResponse) (w : World) :
  idle w → calls (poll_settled o w) = calls w ∧ idle (poll_settled o w).
Proof.
  intros [Ht Href]. unfold poll_settled, stopPolling, idle.
  destruct o as [job|err]; [destruct (status job)|]; simpl;
    rewrite ?Href; simpl; rewrite ?Ht; done.
Qed.

Lemma run_idle (evs : list Event) (w : World) :
  idle w → calls (run w evs) = calls w ∧ idle (run w evs).
Proof.
  revert w; induction evs as [|[id|o] evs IH]; intros w Hw; [done|..];
    rewrite run_cons.
  - simpl. destruct Hw as [Ht Href]. rewrite Ht; simpl. by apply IH.
  - simpl. destruct (poll_settled_idle o w Hw) as [Hc Hi].
    rewrite <-Hc. by apply IH.
Qed.

Lemma run_polling (t : Timer) (evs : list Event) (w : World) :
  polling t w →
  calls (run w evs)
  = (calls w ++ replicate (reads_until_stop (t_id t) evs)
                  (Call_getJobStatus (t_jobId t)))%list
  ∧ (Forall (λ o, stops_polling o = false) (settled evs) →
     polling t (run w evs))
  ∧ (Exists (λ o, stops_polling o = true) (settled evs) → idle (run w evs)).
Proof.
  revert w; induction evs as [|[id|o] evs IH]; intros w Hw.
  - simpl. rewrite app_nil_r. split_and!; [done..|]. by inversion 1.
  - rewrite run_cons. destruct Hw as [Ht Href].
    cbn [step reads_until_stop]. rewrite Ht. cbn [List.find].
    destruct (Nat.eqb_spec (t_id t) id) as [<-|Hne].
    + rewrite decide_True by done.
      destruct (IH (poll_call (t_jobId t) w)) as (Hc & Hon & Hoff); [done|].
      rewrite Hc. cbn [poll_call calls replicate Nat.add].
      split_and!; [by rewrite <-app_assoc|done..].
    + rewrite decide_False by done. by apply IH.
  - rewrite run_cons. cbn [step reads_until_stop settled omap].
    destruct (poll_settled_polling t o w Hw) as [Hc Hst].
    destruct (stops_polling o) eqn:Ho.
    + destruct (run_idle evs _ Hst) as [Hc' Hi].
      rewrite Hc', Hc. simpl. rewrite app_nil_r.
      split_and!; [done| |done].
      intros Hall. apply Forall_cons in Hall as [Hf _]. congruence.
    + destruct (IH _ Hst) as (Hc' & Hon & Hoff).
      rewrite Hc', Hc. split_and!; [done| |].
      * intros Hall. apply Forall_cons in Hall as [_ Hall]. by apply Hon.
      * intros Hex. apply Exists_cons in Hex as [Hf|Hex]; [congruence|].
        by apply Hoff.
Qed.

Lemma start_polling (w : World) (domain : string) (response : AnalyzeResponse) :
  tidy w →
  let w0 := start_settled (Resolved response) (start_call domain w) in
  polling {| t_id := next_timer w; t_period := POLL_INTERVAL;
             t_jobId := ar_job_id response |} w0
  ∧ calls w0 = (calls w ++ [Call_startAnalysis domain None;
                            Call_getJobStatus (ar_job_id response)])%list.
Proof.
  intros Htidy. destruct (stopPolling_tidy w Htidy) as (Ht & Href & Hc & Hn).
  unfold polling; simpl. rewrite Ht, Hn, Hc. split_and!; try done.
  by rewrite <-app_assoc.
Qed.

(** C3: once a job is started the hook registers an interval of
    [POLL_INTERVAL] = 1500 ms for it and reads its status at once; from
    then on every tick of that interval issues one more status read, up to
    the first read that settles with a terminal status (complete or failed)
    or fails.  Polling is still on when no read has settled that way, it is
    off as soon as one has, and no status read is issued afterwards. *)
Theorem polling_stops_exactly_on_terminal_or_failure
    (w : World) (domain : string) (response : AnalyzeResponse)
    (evs : list Event) :
  tidy w →
  let interval := {| t_id := next_timer w; t_period := 1500;
                     t_jobId := ar_job_id response |} in
  let w0 := job_run w domain response [] in
  let w' := job_run w domain response evs in
  POLL_INTERVAL = 1500
  ∧ polling interval w0
  ∧ calls w0 = (calls w ++ [Call_startAnalysis domain None;
                            Call_getJobStatus (ar_job_id response)])%list
  ∧ calls w'
    = (calls w0 ++ replicate (reads_until_stop (next_timer w) evs)
                     (Call_getJobStatus (ar_job_id response)))%list
  ∧ (Forall (λ o, stops_polling o = false) (settled evs) → polling interval w')
  ∧ (Exists (λ o, stops_polling o = true) (settled evs) → idle w').
Proof.
  intros Htidy interval w0 w'.
  destruct (start_polling w domain response Htidy) as [Hon Hcalls].
  destruct (run_polling _ evs _ Hon) as (Hc & Hkeep & Hstop).
  split_and!; done.
Qed.

Lemma polling_stops_exactly_on_terminal_or_failure_witness :
  let done_job := {| job_id := "j1"; status := complete;
                     progress := None; error := None; result := None |} in
  let busy_job := {| job_id := "j1"; status := running;
                     progress := Some fetching_sources; error := None;
                     result := None |} in
  let w' := job_run initial_world "openai.com"
              {| ar_job_id := "j1"; ar_status := queued |}
              [PollSettled (Resolved busy_job); Tick 0;
               PollSettled (Resolved done_job); Tick 0; Tick 0] in
  calls w' = [Call_startAnalysis "openai.com" None;
              Call_getJobStatus "j1"; Call_getJobStatus "j1"]
  ∧ idle w'.
Proof.
  intros done_job busy_job w'.
  assert (Htidy : tidy initial_world) by constructor.
  destruct (polling_stops_exactly_on_terminal_or_failure initial_world
              "openai.com" {| ar_job_id := "j1"; ar_status := queued |}
              [PollSettled (Resolved busy_job); Tick 0;
               PollSettled (Resolved done_job); Tick 0; Tick 0] Htidy)
    as (_ & _ & _ & Hcalls & _ & Hoff).
  split; [exact Hcalls|].
  apply Hoff. right. left. reflexivity.
Defined.

Lemma tidy_polling_or_idle (t : Timer) (w : World) :
  polling t w ∨ idle w → tidy w.
Proof.
  unfold tidy. intros [[-> ->]|[-> _]]; repeat constructor.
Qed.

(** Used one submission after another, the hook keeps its intervals tidy. *)
Lemma tidy_job_run (w : World) (domain : string) (response : AnalyzeResponse)
    (evs : list Event) :
  tidy w → tidy (job_run w domain response evs).
Proof.
  intros Htidy. destruct (start_polling w domain response Htidy) as [Hon _].
  destruct (run_polling _ evs _ Hon) as (_ & Hkeep & Hstop).
  eapply tidy_polling_or_idle.
  destruct (decide (Exists (λ o, stops_polling o = true) (settled evs)))
    as [Hex|Hnex]; [right; by apply Hstop|left; apply Hkeep].
  apply not_Exists_Forall in Hnex; [|apply _].
  eapply Forall_impl; [exact Hnex|]. simpl. intros o. by destruct (stops_polling o).
Qed.

Lemma tidy_reset (w : World) : tidy w → tidy (reset w).
Proof.
  intros Htidy. destruct (stopPolling_tidy w Htidy) as (Ht & Href & _).
  unfold tidy, reset; simpl. rewrite Ht. constructor.
Qed.

(** ** What the hook exposes *)




Lemma hook_ticks (ids : list nat) (w : World) :
  hook (run w (Tick <$> ids)) = hook w.
Proof.
  revert w; induction ids as [|id ids IH]; intros w; [done|].
  rewrite fmap_cons, run_cons, IH. simpl.
  by destruct (List.find _ _).
Qed.

Lemma stopPolling_exposed (w : World) :
  st_status (hook (stopPolling w)) = st_status (hook w)
  ∧ st_result (hook (stopPolling w)) = st_result (hook w)
  ∧ st_error (hook (stopPolling w)) = st_error (hook w).
Proof. unfold stopPolling. by destruct (pollRef (hook w)). Qed.

(** What handling one settled read does to the exposed status, result and
    error. *)
Lemma poll_settled_exposed (o : outcome JobResponse) (w : World) :
  let h := hook w in
  let h' := hook (poll_settled o w) in
  match o with
  | Resolved job =>
      st_status h' = Some (status job)
      ∧ st_result h' = (if decide (status job = complete) then result job
                        else st_result h)
      ∧ (status job = failed →
         st_error h' = Some (error_or_default (error job) "Analysis failed"))
  | Rejected _ => st_status h' = st_status h ∧ st_result h' = st_result h
  end.
Proof.
  destruct o as [job|err]; simpl.
  - destruct (status job) eqn:Hs; simpl;
      rewrite ?(proj1 (stopPolling_exposed _)),
              ?(proj1 (proj2 (stopPolling_exposed _))),
              ?(proj2 (proj2 (stopPolling_exposed _))); simpl; done.
  - by rewrite (proj1 (stopPolling_exposed _)),
               (proj1 (proj2 (stopPolling_exposed _))).
Qed.



(** Without an observation of the status complete no result is exposed. *)
Lemma run_result_none (evs : list Event) (w : World) :
  st_result (hook w) = None →
  Forall (λ b, status b ≠ complete) (observed evs) →
  st_result (hook (run w evs)) = None.
Proof.
  revert w; induction evs as [|[id|[job|err]] evs IH]; intros w Hnone Hall.
  - done.
  - rewrite run_cons. apply IH; [|done]. simpl. by destruct (List.find _ _).
  - rewrite run_cons.
    change (observed (PollSettled (Resolved job) :: evs))
      with (job :: observed evs) in Hall.
    apply Forall_cons in Hall as [Hj Hall]. apply IH; [|done].
    pose proof (poll_settled_exposed (Resolved job) w) as (_ & Hr & _).
    cbn [step]. rewrite Hr. by rewrite decide_False.
  - rewrite run_cons. apply IH; [|done].
    pose proof (poll_settled_exposed (Rejected err) w) as (_ & Hr).
    cbn [step]. by rewrite Hr.
Qed.

Lemma start_result_none (w : World) (domain : string) (response : AnalyzeResponse) :
  st_result (hook (start_settled (Resolved response) (start_call domain w)))
  = None.
Proof.
  unfold start_call; simpl.
  pose proof (stopPolling_exposed w) as (_ & Hr & _). done.
Qed.







(** ** Share of voice *)

Lemma lookup_tabulate {V : Type} (f : string → V) (l : list string) (t : string) :
  (list_to_map ((λ x, (x, f x)) <$> l) : gmap string V) !! t
  = if decide (t ∈ l) then Some (f t) else None.
Proof.
  induction l as [|x l IH].
  - rewrite fmap_nil, list_to_map_nil, lookup_empty.
    by rewrite decide_False by apply not_elem_of_nil.
  - rewrite fmap_cons, list_to_map_cons, lookup_insert. cbn [fst snd].
    destruct (decide (x = t)) as [->|Hne].
    + by rewrite decide_True by left.
    + rewrite IH. destruct (decide (t ∈ l)) as [Hin|Hnin].
      * by rewrite decide_True by (by right).
      * rewrite decide_False; [done|]. intros [?|?]%elem_of_cons; by subst.
Qed.

Lemma Qc_of_nat_add (a b : nat) :
  Qc_of_nat (a + b) = (Qc_of_nat a + Qc_of_nat b)%Qc.
Proof. unfold Qc_of_nat. by rewrite Nat2Z.inj_add, Z2Qc_inj_add. Qed.

Lemma Qc_of_nat_0 : Qc_of_nat 0 = 0%Qc.
Proof. apply Z2Qc_inj_0. Qed.

Lemma Qc_of_nat_nonzero (n : nat) : n ≠ 0%nat → Qc_of_nat n ≠ 0%Qc.
Proof.
  intros Hn Hz. unfold Qc_of_nat in Hz. rewrite <-Z2Qc_inj_0 in Hz.
  apply Z2Qc_inj in Hz. lia.
Qed.

Lemma Qc_sum_shares (total : nat) (cs : list nat) :
  Qc_sum ((λ c, share_of c total) <$> cs)
  = share_of (sum_list cs) total.
Proof.
  unfold share_of, Qc_sum. destruct (decide (total = 0%nat)) as [->|Hne].
  - induction cs as [|c cs IH]; [done|].
    rewrite fmap_cons. cbn [foldr]. rewrite IH. ring.
  - induction cs as [|c cs IH].
    + rewrite fmap_nil. change (sum_list []) with 0%nat. cbn [foldr].
      rewrite Qc_of_nat_0. unfold Qcdiv. ring.
    + rewrite fmap_cons. cbn [foldr sum_list sum_list_with].
      rewrite IH, Qc_of_nat_add. unfold Qcdiv, id. ring.
Qed.

Lemma sum_list_cons (x : nat) (l : list nat) :
  sum_list (x :: l) = (x + sum_list l)%nat.
Proof. done. Qed.

Lemma sum_indicator (P : Prop) `{!Decision P} (x : string) (l : list string) :
  NoDup l →
  sum_list ((λ t, if decide (P ∧ x = t) then 1 else 0)%nat <$> l)
  = if decide (P ∧ x ∈ l) then 1%nat else 0%nat.
Proof.
  induction 1 as [|t l Hnin Hnd IH].
  - rewrite decide_False; [done|]. intros [_ ?%not_elem_of_nil]. done.
  - rewrite fmap_cons, sum_list_cons, IH.
    destruct (decide (P ∧ x = t)) as [[HP ->]|Hne].
    + rewrite (decide_False (P := P ∧ t ∈ l)) by (by intros [_ ?]).
      by rewrite decide_True by (split; [done|by left]).
    + destruct (decide (P ∧ x ∈ l)) as [[HP Hin]|Hnin'].
      * by rewrite decide_True by (split; [done|by right]).
      * rewrite decide_False; [done|].
        intros [HP [->|Hin]%elem_of_cons]; naive_solver.
Qed.

Lemma sum_list_fmap_add {A : Type} (f g : A → nat) (l : list A) :
  sum_list ((λ t, f t + g t)%nat <$> l)
  = (sum_list (f <$> l) + sum_list (g <$> l))%nat.
Proof.
  induction l as [|x l IH]; [done|].
  rewrite !fmap_cons, !sum_list_cons, IH. lia.
Qed.

(** Over distinct targets the per-target counts of a subreddit add up to
    its total. *)
Lemma sum_mention_count (tgts : list string) (mentions : list TargetMention)
    (subreddit : string) :
  NoDup tgts →
  sum_list (mention_count mentions subreddit <$> tgts)
  = total_mentions tgts mentions subreddit.
Proof.
  intros Hnd. unfold mention_count, total_mentions.
  induction mentions as [|m ms IH].
  - rewrite !filter_nil. clear Hnd.
    induction tgts as [|t tgts IHt]; [done|].
    rewrite fmap_cons, sum_list_cons, IHt. by rewrite filter_nil.
  - rewrite (list_fmap_ext _
      (λ t, (if decide (tm_subreddit m = subreddit ∧ tm_target m = t)
             then 1 else 0)
            + length (filter (λ m0, tm_subreddit m0 = subreddit
                                    ∧ tm_target m0 = t) ms))%nat tgts).
    + rewrite sum_list_fmap_add, IH, sum_indicator by done.
      rewrite filter_cons.
      destruct (decide (tm_subreddit m = subreddit ∧ tm_target m ∈ tgts));
        simpl; lia.
    + intros i t _. rewrite filter_cons.
      by destruct (decide (tm_subreddit m = subreddit ∧ tm_target m = t)).
Qed.

(** C7: in a row of the share-of-voice table each target's share is its
    count over the subreddit's total, and 0 when the total is 0 (nothing is
    divided by zero: the shares are then all 0); the shares of the targets
    of a row add up to at most 1. *)
Theorem share_of_voice_at_most_one
    (tgts : list string) (mentions : list TargetMention) (subreddit : string) :
  NoDup tgts →
  let row := share_of_voice tgts mentions subreddit in
  (∀ t, t ∈ tgts →
     ss_counts row !! t = Some (mention_count mentions subreddit t)
     ∧ ss_share row !! t
       = Some (if decide (ss_total row = 0%nat) then 0%Qc
               else (Qc_of_nat (mention_count mentions subreddit t)
                     / Qc_of_nat (ss_total row))%Qc))
  ∧ (ss_total row = 0%nat → ∀ t, displayed_share row t = 0%Qc)
  ∧ (Qc_sum (displayed_share row <$> tgts) ≤ 1)%Qc.
Proof.
  intros Hnd row. subst row. cbn [share_of_voice ss_counts ss_share ss_total].
  split_and!.
  - intros t Hin. rewrite !lookup_tabulate, !decide_True by done. done.
  - intros Hz t. unfold displayed_share; cbn [ss_share share_of_voice].
    rewrite lookup_tabulate, Hz. by destruct (decide (t ∈ tgts)).
  - rewrite (list_fmap_ext _
      (λ t, share_of (mention_count mentions subreddit t)
              (total_mentions tgts mentions subreddit)) tgts).
    + rewrite (list_fmap_compose (mention_count mentions subreddit)
                 (λ c, share_of c (total_mentions tgts mentions subreddit))).
      rewrite Qc_sum_shares, sum_mention_count by done.
      unfold share_of. destruct (decide _) as [Hz|Hz]; [done|].
      unfold Qcdiv. rewrite Qcmult_inv_r by by apply Qc_of_nat_nonzero.
      apply Qcle_refl.
    + intros i t Hin. unfold displayed_share; cbn [ss_share share_of_voice].
      rewrite lookup_tabulate, decide_True; [done|].
      by eapply list_elem_of_lookup_2.
Qed.

Lemma share_of_voice_at_most_one_witness :
  let mentions :=
    [ {| tm_target := "openai"; tm_subreddit := "MachineLearning";
         tm_source := "t3_a" |};
      {| tm_target := "anthropic"; tm_subreddit := "MachineLearning";
         tm_source := "t3_a" |};
      {| tm_target := "openai"; tm_subreddit := "MachineLearning";
         tm_source := "t3_b" |} ] in
  let row := share_of_voice ["openai"; "anthropic"] mentions "MachineLearning" in
  ss_total row = 3%nat
  ∧ (Qc_sum (displayed_share row <$> ["openai"; "anthropic"]) ≤ 1)%Qc.
Proof.
  intros mentions row. split; [reflexivity|].
  assert (Hnd : NoDup ["openai"; "anthropic"]) by compute_done.
  exact (proj2 (proj2 (share_of_voice_at_most_one
                  ["openai"; "anthropic"] mentions "MachineLearning" Hnd))).
Defined.

(** ** Co-mentions *)

Lemma elem_of_pairs_of_cons (a b x : string) (l : list string) :
  (a, b) ∈ pairs_of (x :: l) ↔ (a = x ∧ b ∈ l) ∨ (a, b) ∈ pairs_of l.
Proof.
  cbn [pairs_of]. rewrite elem_of_app, list_elem_of_fmap. split.
  - intros [(y & [= -> ->] & Hy)|?]; auto.
  - intros [[-> Hb]|?]; [left; by exists b|by right].
Qed.

Lemma elem_of_pairs_of (a b : string) (l : list string) :
  (a, b) ∈ pairs_of l → a ∈ l ∧ b ∈ l.
Proof.
  induction l as [|x l IH]; [by intros ?%elem_of_nil|].
  rewrite elem_of_pairs_of_cons, !elem_of_cons. naive_solver.
Qed.

Lemma NoDup_pairs_of (l : list string) : NoDup l → NoDup (pairs_of l).
Proof.
  induction 1 as [|x l Hx Hnd IH]; cbn [pairs_of]; [constructor|].
  apply NoDup_app. split_and!; [|intros [a b] Hin Hin'|done].
  - apply NoDup_fmap_2; [|done]. by intros ?? [=].
  - apply list_elem_of_fmap in Hin as (y & [= -> ->] & _).
    by apply elem_of_pairs_of in Hin' as [? _].
Qed.

Lemma pairs_of_irrefl (a : string) (l : list string) :
  NoDup l → (a, a) ∉ pairs_of l.
Proof.
  induction 1 as [|x l Hx Hnd IH]; [apply not_elem_of_nil|].
  rewrite elem_of_pairs_of_cons. naive_solver.
Qed.

Lemma pairs_of_asym (a b : string) (l : list string) :
  NoDup l → (a, b) ∈ pairs_of l → (b, a) ∉ pairs_of l.
Proof.
  induction 1 as [|x l Hx Hnd IH]; [by intros ?%elem_of_nil|].
  rewrite !elem_of_pairs_of_cons.
  intros [[Ha Hb]|Hab] [[Hb' Ha']|Hba].
  - by subst.
  - subst. by apply elem_of_pairs_of in Hba as [_ ?].
  - subst. by apply elem_of_pairs_of in Hab as [_ ?].
  - by apply IH.
Qed.

Lemma pairs_of_total (a b : string) (l : list string) :
  a ∈ l → b ∈ l → a ≠ b → (a, b) ∈ pairs_of l ∨ (b, a) ∈ pairs_of l.
Proof.
  induction l as [|x l IH]; [by intros ?%elem_of_nil|].
  rewrite !elem_of_pairs_of_cons, !elem_of_cons. naive_solver.
Qed.

Lemma elem_of_pairs_of_filter (P : string → Prop) `{!∀ x, Decision (P x)}
    (a b : string) (l : list string) :
  (a, b) ∈ pairs_of (filter P l) ↔ (a, b) ∈ pairs_of l ∧ P a ∧ P b.
Proof.
  induction l as [|x l IH]; [rewrite filter_nil; set_solver|].
  rewrite filter_cons. destruct (decide (P x)) as [HP|HP].
  - rewrite !elem_of_pairs_of_cons, IH, list_elem_of_filter. naive_solver.
  - rewrite elem_of_pairs_of_cons, IH. split; [naive_solver|].
    intros [[[-> Hb]|Hab] [Ha Hb']]; [done|auto].
Qed.

Lemma lookup_foldl_bump (ps : list (string * string))
    (counter : gmap (string * string) nat) (p : string * string) :
  NoDup ps →
  foldl bump counter ps !! p
  = if decide (p ∈ ps) then Some (S (default 0%nat (counter !! p)))
    else counter !! p.
Proof.
  intros Hnd. revert counter.
  induction Hnd as [|q ps Hq Hnd IH]; intros counter.
  - by rewrite decide_False by apply not_elem_of_nil.
  - cbn [foldl]. rewrite IH. unfold bump at 1 2.
    destruct (decide (p = q)) as [->|Hne].
    + rewrite decide_False by done. rewrite lookup_insert_eq.
      by rewrite decide_True by left.
    + rewrite lookup_insert_ne by done.
      destruct (decide (p ∈ ps)) as [Hin|Hnin].
      * by rewrite decide_True by (by right).
      * rewrite decide_False; [done|]. by intros [?|?]%elem_of_cons.
Qed.

Section co_mentions_facts.
Variables (tgts : list string) (mentions : list TargetMention).
Hypothesis tgts_distinct : NoDup tgts.

Lemma lookup_count_source (counter : gmap (string * string) nat)
    (source : string) (p : string * string) :
  count_source tgts mentions counter source !! p
  = if decide (p ∈ pairs_of (filter (λ t, appears_in mentions source t) tgts))
    then Some (S (default 0%nat (counter !! p)))
    else counter !! p.
Proof.
  unfold count_source. apply lookup_foldl_bump.
  by apply NoDup_pairs_of, NoDup_filter.
Qed.

Lemma lookup_foldl_count_source (sources : list string)
    (counter : gmap (string * string) nat) (p : string * string) :
  foldl (count_source tgts mentions) counter sources !! p
  = let n :=
      length (filter (λ s, p ∈ pairs_of
                             (filter (λ t, appears_in mentions s t) tgts))
                sources) in
    match counter !! p with
    | Some k => Some (k + n)%nat
    | None => if decide (n = 0%nat) then None else Some n
    end.
Proof.
  revert counter. induction sources as [|s sources IH]; intros counter.
  - cbn [foldl]. rewrite filter_nil. cbn [length].
    destruct (counter !! p) as [k|]; [by rewrite Nat.add_0_r|done].
  - cbn [foldl]. rewrite IH, lookup_count_source, filter_cons. cbv zeta.
    destruct (decide (p ∈ pairs_of _)) as [Hin|Hnin]; [|done].
    cbn [length]. rewrite decide_False by done.
    destruct (counter !! p) as [k|]; simpl; f_equal; lia.
Qed.

Lemma lookup_pair_counter (a b : string) :
  pair_counter tgts mentions !! (a, b)
  = if decide ((a, b) ∈ pairs_of tgts ∧ sources_with_both mentions a b ≠ 0%nat)
    then Some (sources_with_both mentions a b)
    else None.
Proof.
  unfold pair_counter. rewrite lookup_foldl_count_source, lookup_empty.
  cbv zeta. unfold sources_with_both.
  destruct (decide ((a, b) ∈ pairs_of tgts)) as [Hin|Hnin].
  - rewrite (list_filter_iff _
      (λ s, appears_in mentions s a ∧ appears_in mentions s b)).
    + generalize (length (filter (λ s, appears_in mentions s a
                                       ∧ appears_in mentions s b)
                            (sources_of mentions))).
      intros n. destruct (decide (n = 0%nat)) as [Hz|Hz].
      * rewrite decide_False; [done|]. intros [_ Hn]. by apply Hn.
      * by rewrite decide_True.
    + intros s. rewrite elem_of_pairs_of_filter. naive_solver.
  - rewrite (list_filter_iff _ (λ _, False)).
    + assert (Hnil : ∀ l : list string, filter (λ _, False) l = []).
      { intros l. induction l as [|x l IHl]; [done|].
        rewrite filter_cons_False; [done|by intros []]. }
      rewrite Hnil. cbn [length]. rewrite decide_True by done.
      by rewrite decide_False by naive_solver.
    + intros s. rewrite elem_of_pairs_of_filter. naive_solver.
Qed.

Lemma sources_with_both_sym (a b : string) :
  sources_with_both mentions a b = sources_with_both mentions b a.
Proof.
  unfold sources_with_both. f_equal. apply list_filter_iff. naive_solver.
Qed.

Lemma elem_of_co_mention_list (e : CoMentionsSummary) :
  e ∈ co_mention_list tgts mentions
  ↔ pair_counter tgts mentions !! cm_pair e = Some (cm_count e).
Proof.
  unfold co_mention_list. rewrite merge_sort_Permutation, list_elem_of_fmap.
  split.
  - intros ([p n] & -> & Hin). by apply elem_of_map_to_list in Hin.
  - intros Hl. exists (cm_pair e, cm_count e). split; [by destruct e|].
    by apply elem_of_map_to_list.
Qed.

Lemma co_mention_list_entry (e : CoMentionsSummary) :
  e ∈ co_mention_list tgts mentions
  ↔ cm_pair e ∈ pairs_of tgts
    ∧ cm_count e = sources_with_both mentions (cm_pair e).1 (cm_pair e).2
    ∧ cm_count e ≠ 0%nat.
Proof.
  rewrite elem_of_co_mention_list. destruct e as [[a b] n]; cbn [cm_pair cm_count fst snd].
  rewrite lookup_pair_counter. case_decide; naive_solver.
Qed.

Lemma NoDup_co_mention_pairs :
  NoDup (cm_pair <$> co_mention_list tgts mentions).
Proof.
  unfold co_mention_list. rewrite merge_sort_Permutation.
  rewrite <-list_fmap_compose.
  apply (NoDup_fst_map_to_list (pair_counter tgts mentions)).
Qed.
End co_mentions_facts.

Lemma find_ext {A : Type} (f g : A → bool) (l : list A) :
  (∀ x, f x = g x) → List.find f l = List.find g l.
Proof.
  intros Hfg. induction l as [|x l IH]; [done|].
  cbn [List.find]. by rewrite Hfg, IH.
Qed.

Lemma is_pair_sym (a b : string) (e : CoMentionsSummary) :
  is_pair a b e ↔ is_pair b a e.
Proof. unfold is_pair. tauto. Qed.

Lemma filter_at_most_one {A B : Type} (f : A → B) (P : A → Prop)
    `{!∀ x, Decision (P x)} (l : list A) :
  NoDup (f <$> l) →
  (∀ x y, x ∈ l → y ∈ l → P x → P y → f x = f y) →
  (length (filter P l) ≤ 1)%nat.
Proof.
  induction l as [|x l IH]; [rewrite filter_nil; simpl; lia|].
  rewrite fmap_cons, NoDup_cons. intros [Hx Hnd] Hsame.
  rewrite filter_cons. destruct (decide (P x)) as [HP|HP].
  - assert (Hnil : filter P l = []).
    { apply elem_of_nil_inv. intros y [HPy Hy]%list_elem_of_filter.
      apply Hx. rewrite (Hsame x y); [by apply list_elem_of_fmap_2| |by right|done..].
      by left. }
    rewrite Hnil. simpl. lia.
  - apply IH; [done|]. intros y z Hy Hz. apply Hsame; by right.
Qed.

(** C6: the co-mention count is symmetric in its two targets and is the
    number of sources in which both appear; the returned list holds at most
    one entry for an unordered pair, written one way round, and exactly one
    for a pair that is co-mentioned at all; and the list is sorted
    descending by count. *)
Theorem co_mentions_symmetric_once_sorted
    (tgts : list string) (mentions : list TargetMention) :
  NoDup tgts →
  let out := co_mention_list tgts mentions in
  (∀ a b, co_count out a b = co_count out b a)
  ∧ (∀ a b, a ∈ tgts → b ∈ tgts → a ≠ b →
            co_count out a b = sources_with_both mentions a b)
  ∧ (∀ a b, (length (filter (is_pair a b) out) ≤ 1)%nat)
  ∧ (∀ a b, a ∈ tgts → b ∈ tgts → a ≠ b →
            sources_with_both mentions a b ≠ 0%nat →
            length (filter (is_pair a b) out) = 1%nat)
  ∧ Sorted (λ x y, (cm_count y ≤ cm_count x)%nat) out.
Proof.
  intros Hnd out.
  assert (Hentry := co_mention_list_entry tgts mentions Hnd).
  assert (Honce : ∀ a b, (length (filter (is_pair a b) out) ≤ 1)%nat).
  { intros a b. apply (filter_at_most_one cm_pair).
    - apply NoDup_co_mention_pairs.
    - intros x y Hx%Hentry Hy%Hentry [Hx'|Hx'] [Hy'|Hy']; try congruence.
      + destruct Hx as [Hx _], Hy as [Hy _]. rewrite Hx' in Hx. rewrite Hy' in Hy.
        by destruct (pairs_of_asym a b tgts Hnd).
      + destruct Hx as [Hx _], Hy as [Hy _]. rewrite Hx' in Hx. rewrite Hy' in Hy.
        by destruct (pairs_of_asym a b tgts Hnd). }
  assert (Hsome : ∀ a b, a ∈ tgts → b ∈ tgts → a ≠ b →
            sources_with_both mentions a b ≠ 0%nat →
            ∃ e, e ∈ out ∧ is_pair a b e).
  { intros a b Ha Hb Hab Hn.
    destruct (pairs_of_total a b tgts Ha Hb Hab) as [Hp|Hp].
    - exists {| cm_pair := (a, b); cm_count := sources_with_both mentions a b |}.
      split; [by apply Hentry|by left].
    - exists {| cm_pair := (b, a); cm_count := sources_with_both mentions b a |}.
      split; [|by right]. apply Hentry. cbn [cm_pair cm_count fst snd].
      by rewrite (sources_with_both_sym mentions b a). }
  split_and!.
  - intros a b. unfold co_count.
    rewrite (find_ext _ (λ e, bool_decide (is_pair b a e))); [done|].
    intros e. apply bool_decide_ext, is_pair_sym.
  - intros a b Ha Hb Hab. unfold co_count.
    destruct (List.find _ out) as [e|] eqn:Hfind.
    + apply find_some in Hfind as [Hin Hpair].
      apply list_elem_of_In, Hentry in Hin as (_ & -> & _).
      apply bool_decide_eq_true in Hpair as [-> | ->]; cbn [fst snd];
        [done|apply sources_with_both_sym].
    + destruct (decide (sources_with_both mentions a b = 0%nat)) as [|Hn]; [done|].
      destruct (Hsome a b Ha Hb Hab Hn) as (e & Hin & Hpair).
      apply list_elem_of_In in Hin.
      pose proof (find_none _ _ Hfind e Hin) as Hf.
      by apply bool_decide_eq_false in Hf.
  - exact Honce.
  - intros a b Ha Hb Hab Hn.
    destruct (Hsome a b Ha Hb Hab Hn) as (e & Hin & Hpair).
    assert (Hmem : e ∈ filter (is_pair a b) out) by by apply list_elem_of_filter.
    specialize (Honce a b).
    destruct (filter (is_pair a b) out); [by apply elem_of_nil in Hmem|].
    simpl in *. lia.
  - assert (Htotal : Total by_count_desc).
    { intros x y. unfold by_count_desc. lia. }
    apply (Sorted_merge_sort by_count_desc).
Qed.

Lemma co_mentions_symmetric_once_sorted_witness :
  let mentions :=
    [ {| tm_target := "openai"; tm_subreddit := "MachineLearning";
         tm_source := "t3_a" |};
      {| tm_target := "anthropic"; tm_subreddit := "MachineLearning";
         tm_source := "t3_a" |};
      {| tm_target := "anthropic"; tm_subreddit := "artificial";
         tm_source := "t3_b" |};
      {| tm_target := "openai"; tm_subreddit := "artificial";
         tm_source := "t3_b" |};
      {| tm_target := "mistral"; tm_subreddit := "artificial";
         tm_source := "t3_b" |} ] in
  let out := co_mention_list ["openai"; "anthropic"; "mistral"] mentions in
  co_count out "anthropic" "openai" = 2%nat
  ∧ length (filter (is_pair "anthropic" "openai") out) = 1%nat
  ∧ Sorted (λ x y, (cm_count y ≤ cm_count x)%nat) out.
Proof.
  intros mentions out.
  assert (Hnd : NoDup ["openai"; "anthropic"; "mistral"]) by compute_done.
  destruct (co_mentions_symmetric_once_sorted _ mentions Hnd)
    as (_ & Hcount & _ & Hone & Hsorted).
  split_and!; [|apply Hone|exact Hsorted]; try apply Hcount;
    try compute_done.
Defined.

(** * Further properties *)

(** ** The hook beyond one run *)

Lemma poll_settled_loading (o : outcome JobResponse) (w : World) :
  st_isLoading (hook (poll_settled o w))
  = if stops_polling o then false else st_isLoading (hook w).
Proof.
  unfold poll_settled, stops_polling, stopPolling.
  destruct o as [job|err]; [destruct (status job)|]; simpl;
    try done; by destruct (pollRef (hook w)).
Qed.

Lemma step_tick_hook (id : nat) (w : World) : hook (step w (Tick id)) = hook w.
Proof. simpl. by destruct (List.find _ _). Qed.






Lemma hook_run_cons (w : World) (ev : HookEvent) (evs : list HookEvent) :
  hook_run w (ev :: evs) = hook_run (hook_step w ev) evs.
Proof. done. Qed.

Lemma hook_run_runtime (w : World) (evs : list Event) :
  hook_run w (Runtime <$> evs) = run w evs.
Proof.
  revert w; induction evs as [|ev evs IH]; intros w; [done|].
  by rewrite fmap_cons, hook_run_cons, run_cons, IH.
Qed.

(** While no pending [startAnalysis] call resolves, an idle hook stays idle
    and reads nothing. *)
Lemma hook_run_idle (evs : list HookEvent) (w : World) :
  idle w → Forall (λ ev, start_resumes ev = false) evs →
  calls (hook_run w evs) = calls w ∧ idle (hook_run w evs).
Proof.
  revert w; induction evs as [|ev evs IH]; intros w Hw Hall; [done|].
  apply Forall_cons in Hall as [Hev Hall]. rewrite hook_run_cons.
  destruct ev as [ev|[response|err]]; [|done|].
  - destruct (run_idle [ev] w Hw) as [Hc Hi].
    change (run w [ev]) with (step w ev) in Hc, Hi.
    cbn [hook_step]. rewrite <-Hc. by apply IH.
  - cbn [hook_step start_settled].
    destruct (IH (with_hook
                    (λ h, setIsLoading false
                            (setError (Some (message_of err "Failed to start analysis")) h))
                    w)) as [Hc Hi]; [by destruct Hw|done|].
    by rewrite Hc.
Qed.

(** A registered interval reads the status on each of its ticks. *)
Lemma run_ticks_read (t : Timer) (n : nat) (w : World) :
  timers w = [t] →
  calls (run w (replicate n (Tick (t_id t))))
  = (calls w ++ replicate n (Call_getJobStatus (t_jobId t)))%list.
Proof.
  revert w; induction n as [|n IH]; intros w Ht.
  - simpl. by rewrite app_nil_r.
  - cbn [replicate]. rewrite run_cons. cbn [step]. rewrite Ht.
    cbn [List.find]. rewrite Nat.eqb_refl.
    rewrite IH by done. cbn [poll_call calls]. by rewrite <-app_assoc.
Qed.

(** A pending [startAnalysis] call that resolves on an idle hook starts
    polling: the status is read at once and on every tick of the new
    interval. *)
Lemma late_start_polls (response : AnalyzeResponse) (n : nat) (w : World) :
  idle w →
  calls (hook_run w (StartSettled (Resolved response)
                       :: replicate n (Runtime (Tick (next_timer w)))))
  = (calls w ++ replicate (S n) (Call_getJobStatus (ar_job_id response)))%list.
Proof.
  intros [Ht Href]. rewrite hook_run_cons.
  rewrite <-(fmap_replicate Runtime), hook_run_runtime.
  cbn [hook_step start_settled].
  set (t := {| t_id := next_timer w; t_period := POLL_INTERVAL;
               t_jobId := ar_job_id response |}).
  rewrite (run_ticks_read t n).
  - cbn [poll_call calls setInterval with_hook t_jobId t].
    by rewrite <-app_assoc.
  - cbn [poll_call timers setInterval with_hook]. by rewrite Ht.
Qed.

(** X3: on a hook whose registered intervals are all held by [pollRef],
    [reset] puts the hook back into its initial state, and after [reset] or
    the unmount cleanup no interval is left.  As long as no pending
    [startAnalysis] call resolves, no status read is issued any more,
    whatever ticks, late status answers and failed starts follow.  A
    pending [startAnalysis] call that resolves after [reset] or the cleanup
    makes [start] go on unchecked: it registers a new interval and the
    status is read at once and on every tick. *)
Theorem reset_and_unmount_stop_reads_until_start_resumes
    (w : World) (evs : list HookEvent) :
  tidy w →
  hook (reset w) = initial_hook
  ∧ idle (reset w) ∧ idle (unmount w)
  ∧ (Forall (λ ev, start_resumes ev = false) evs →
     calls (hook_run (reset w) evs) = calls w
     ∧ calls (hook_run (unmount w) evs) = calls w
     ∧ idle (hook_run (reset w) evs) ∧ idle (hook_run (unmount w) evs))
  ∧ (∀ response n,
       let late := StartSettled (Resolved response)
                     :: replicate n (Runtime (Tick (next_timer w))) in
       let reads := replicate (S n) (Call_getJobStatus (ar_job_id response)) in
       calls (hook_run (reset w) late) = (calls w ++ reads)%list
       ∧ calls (hook_run (unmount w) late) = (calls w ++ reads)%list).
Proof.
  intros Htidy.
  destruct (stopPolling_tidy w Htidy) as (Ht & Href & Hc & Hn).
  assert (Hr : idle (reset w)).
  { unfold idle, reset; simpl. by rewrite Ht. }
  assert (Hu : idle (unmount w)) by done.
  split_and!; try done.
  - unfold reset. destruct (stopPolling w) as [h ts n cs]. simpl in *.
    destruct h; simpl in *. unfold initial_hook, setIsLoading; simpl.
    by rewrite Href.
  - intros Hall.
    destruct (hook_run_idle evs _ Hr Hall) as [-> ?].
    destruct (hook_run_idle evs _ Hu Hall) as [-> ?].
    split_and!; try done.
  - intros response n late reads. subst late reads. split.
    + replace (next_timer w) with (next_timer (reset w))
        by (unfold reset; simpl; done).
      rewrite (late_start_polls response n _ Hr).
      unfold reset; simpl. by rewrite Hc.
    + replace (next_timer w) with (next_timer (unmount w)) by done.
      rewrite (late_start_polls response n _ Hu).
      unfold unmount. by rewrite Hc.
Qed.

Lemma reset_and_unmount_stop_reads_until_start_resumes_witness :
  let w := start_call "openai.com" initial_world in
  let w' := hook_run (unmount w)
              [StartSettled (Resolved {| ar_job_id := "j1"; ar_status := queued |});
               Runtime (Tick 0); Runtime (Tick 0)] in
  calls (hook_run (unmount w) [Runtime (Tick 0); Runtime (Tick 0)]) = calls w
  ∧ hook (reset w) = initial_hook
  ∧ calls w' = [Call_startAnalysis "openai.com" None; Call_getJobStatus "j1";
                Call_getJobStatus "j1"; Call_getJobStatus "j1"].
Proof.
  intros w w'.
  assert (Htidy : tidy w) by constructor.
  destruct (reset_and_unmount_stop_reads_until_start_resumes w
              [Runtime (Tick 0); Runtime (Tick 0)] Htidy)
    as (Hh & _ & _ & Hquiet & Hlate).
  split_and!; [|done|].
  - apply Hquiet. by repeat constructor.
  - exact (proj2 (Hlate {| ar_job_id := "j1"; ar_status := queued |} 2%nat)).
Defined.

Lemma stopPolling_job (w : World) :
  st_jobId (hook (stopPolling w)) = st_jobId (hook w)
  ∧ st_progress (hook (stopPolling w)) = st_progress (hook w)
  ∧ pollRef (hook (stopPolling w)) = None.
Proof.
  unfold stopPolling. destruct (pollRef (hook w)) eqn:Href; by simpl.
Qed.

Lemma poll_settled_job (o : outcome JobResponse) (w : World) :
  st_jobId (hook (poll_settled o w)) = st_jobId (hook w)
  ∧ st_progress (hook (poll_settled o w))
    = match o with
      | Resolved job => progress job
      | Rejected _ => st_progress (hook w)
      end.
Proof.
  destruct o as [job|err]; simpl.
  - destruct (status job); simpl;
      rewrite ?(proj1 (stopPolling_job _)), ?(proj1 (proj2 (stopPolling_job _)));
      done.
  - by rewrite (proj1 (stopPolling_job _)), (proj1 (proj2 (stopPolling_job _))).
Qed.





(** X5: when the status read of [getJobStatus] fails, the hook stops
    polling and loading and keeps status and result; the error it exposes
    is the message the server's error body carries (its [detail] or
    [message], else the status line) when the response was not ok, and
    "Failed to fetch job status" when the network failed or an ok response
    had no JSON body. *)
Theorem failed_status_read_message {num : Type} `{!JsNumber num}
    (base : string) (fetch : Request num → outcome (Response num))
    (jobId : string) (err : exn) (w : World) :
  getJobStatus base fetch jobId = Rejected err →
  let h := hook (poll_settled (Rejected err) w) in
  st_error h
  = Some match fetch (getJobStatus_request base jobId) with
         | Resolved response =>
             if ok response then "Failed to fetch job status"
             else reported_message response
         | Rejected (ThrownApiError a) => ae_message a
         | Rejected _ => "Failed to fetch job status"
         end
  ∧ st_isLoading h = false ∧ pollRef h = None
  ∧ st_status h = st_status (hook w) ∧ st_result h = st_result (hook w).
Proof.
  intros Hget h. subst h.
  pose proof (poll_settled_exposed (Rejected err) w) as [Hs Hr].
  pose proof (poll_settled_loading (Rejected err) w) as Hl.
  split_and!; try done.
  - unfold getJobStatus, get in Hget.
    change (get_request base ("/api/jobs/" +:+ jobId))
      with (getJobStatus_request (num := num) base jobId) in Hget.
    cbn [poll_settled].
    rewrite (proj2 (proj2 (stopPolling_exposed _))). cbn.
    destruct (fetch (getJobStatus_request base jobId)) as [response|e].
    + destruct (ok response) eqn:Hok.
      * rewrite handleResponse_ok in Hget by done.
        destruct (rs_json response); by inversion Hget.
      * rewrite handleResponse_not_ok in Hget by done. by inversion Hget.
    + inversion Hget; subst. by destruct err.
  - cbn [poll_settled]. apply stopPolling_job.
Qed.

Lemma failed_status_read_message_witness :
  st_error (hook (poll_settled
     (Rejected (ThrownApiError {| ae_status := 404; ae_statusText := "Not Found";
                                  ae_message := "Job not found" |}))
     initial_world))
  = Some "Job not found".
Proof.
  pose proof (failed_status_read_message (num := Z) "http://localhost:8000"
    (λ _, Resolved {| rs_status := 404; rs_statusText := "Not Found";
                      rs_json := Some (JObj [("detail", JStr "Job not found")]) |})
    "j1"
    (ThrownApiError {| ae_status := 404; ae_statusText := "Not Found";
                       ae_message := "Job not found" |})
    initial_world eq_refl) as [He _].
  exact He.
Defined.

(** ** The status panel *)

(** X8: for every status the [JobStatus] component shows exactly one of the
    tags Running, Complete and Failed; the Retry button comes with the
    Failed tag only; the progress bar is drawn only under the Running tag,
    where it is at most 95 percent wide, so the 100 the component computes
    for a completed job is never drawn; and an error text is drawn only
    under the Failed tag, and is then the non-empty error passed in. *)
Theorem status_panel_one_tag
    (s : JobStatus) (progress : option ProgressStep) (error : option string) :
  ∃ p, JobStatus_render (Some s) progress error = Some p
  ∧ (sp_running_tag p, sp_complete_tag p, sp_failed_tag p)
    ∈ [(true, false, false); (false, true, false); (false, false, true)]
  ∧ sp_retry_button p = sp_failed_tag p
  ∧ (∀ n, sp_bar_percent p = Some n →
          sp_running_tag p = true ∧ 0 ≤ n ≤ 95)
  ∧ (sp_running_tag p = true → is_Some (sp_bar_percent p))
  ∧ (∀ e, sp_error_text p = Some e →
          sp_failed_tag p = true ∧ error = Some e ∧ e ≠ "").
Proof.
  eexists. split; [reflexivity|]. cbn.
  destruct s; cbn; split_and!; try done; try (set_solver);
    try (intros n [= <-]; split; [done|];
         unfold percent; destruct progress as [[]|]; simpl; lia);
    try (by eexists).
  intros e. unfold nonempty. destruct error as [v|]; [|done].
  destruct (String.eqb_spec v ""); simpl; [done|]. by intros [= <-].
Qed.

Lemma run_status_among (evs : list Event) (w : World) (s0 : JobStatus) :
  st_status (hook w) = Some s0 →
  ∃ s, st_status (hook (run w evs)) = Some s
       ∧ (s = s0 ∨ ∃ job, job ∈ observed evs ∧ s = status job).
Proof.
  revert w s0; induction evs as [|[id|[job|err]] evs IH]; intros w s0 Hs.
  - exists s0. auto.
  - rewrite run_cons. apply (IH _ s0). by rewrite step_tick_hook.
  - rewrite run_cons.
    destruct (IH (step w (PollSettled (Resolved job))) (status job))
      as (s & Hrun & Hor).
    { cbn [step]. apply (poll_settled_exposed (Resolved job) w). }
    exists s. split; [done|]. right.
    change (observed (PollSettled (Resolved job) :: evs))
      with (job :: observed evs).
    destruct Hor as [->|(j & Hj & ->)]; [exists job|exists j];
      (split; [|done]); [by left|by right].
  - rewrite run_cons. apply (IH _ s0). cbn [step].
    by rewrite (proj1 (poll_settled_exposed (Rejected err) w)).
Qed.

(** X9: the error the hook holds is drawn only under the status failed.
    When a status read fails while the job was last seen queued or running,
    the hook stops polling and loading and holds the error, yet the panel
    keeps the Running tag and its progress bar and draws no error text.
    And when the first submission fails before any status is known, the
    hook holds the error and the panel draws nothing at all. *)
Theorem read_failure_is_not_displayed
    (w : World) (domain : string) (response : AnalyzeResponse)
    (evs : list Event) (err : exn) (ids : list nat) :
  is_terminal (ar_status response) = false →
  Forall (λ job, is_terminal (status job) = false) (observed evs) →
  let h := hook (job_run w domain response
                   (evs ++ PollSettled (Rejected err) :: (Tick <$> ids))) in
  (st_error h = Some (message_of err "Failed to fetch job status")
   ∧ st_isLoading h = false ∧ pollRef h = None
   ∧ ∃ p, status_panel h = Some p
          ∧ sp_running_tag p = true ∧ is_Some (sp_bar_percent p)
          ∧ sp_failed_tag p = false ∧ sp_error_text p = None)
  ∧ (st_status (hook w) = None →
     let h0 := hook (start_settled (Rejected err) (start_call domain w)) in
     st_error h0 = Some (message_of err "Failed to start analysis")
     ∧ status_panel h0 = None).
Proof.
  intros Hresp Hobs h. split.
  - subst h. unfold job_run. rewrite run_app, run_cons, hook_ticks.
    set (w0 := start_settled (Resolved response) (start_call domain w)).
    destruct (run_status_among evs w0 (ar_status response)) as (s & Hs & Hor);
      [done|].
    assert (Hrun : is_terminal s = false).
    { destruct Hor as [->|(job & Hin & ->)]; [done|].
      rewrite Forall_forall in Hobs. by apply Hobs. }
    set (w1 := run w0 evs) in *. cbn [step].
    pose proof (poll_settled_exposed (Rejected err) w1) as [Hst _].
    pose proof (poll_settled_loading (Rejected err) w1) as Hl.
    pose proof (poll_settled_job (Rejected err) w1) as [_ Hp].
    assert (He : st_error (hook (poll_settled (Rejected err) w1))
                 = Some (message_of err "Failed to fetch job status")).
    { cbn [poll_settled]. by rewrite (proj2 (proj2 (stopPolling_exposed _))). }
    split_and!; [done|done|cbn [poll_settled]; apply stopPolling_job|].
    unfold status_panel. rewrite Hst, Hs, He.
    destruct s; try done; cbn; eexists; split_and!; try done; by eexists.
  - intros Hnone h0. subst h0. split.
    + done.
    + unfold status_panel.
      assert (Hs : st_status (hook (start_settled (Rejected err)
                                      (start_call domain w))) = None).
      { cbn. by rewrite (proj1 (stopPolling_exposed w)). }
      rewrite Hs. cbn [JobStatus_render]. by destruct (_ || _).
Qed.

Lemma read_failure_is_not_displayed_witness :
  let busy_job := {| job_id := "j1"; status := running;
                     progress := Some fetching_sources; error := None;
                     result := None |} in
  let h := hook (job_run initial_world "openai.com"
                   {| ar_job_id := "j1"; ar_status := queued |}
                   [PollSettled (Resolved busy_job);
                    PollSettled (Rejected TypeError); Tick 0]) in
  st_error h = Some "Failed to fetch job status"
  ∧ ∃ p, status_panel h = Some p
         ∧ sp_running_tag p = true ∧ sp_error_text p = None.
Proof.
  intros busy_job h.
  assert (Hobs : Forall (λ job, is_terminal (status job) = false)
                   (observed [PollSettled (Resolved busy_job)]))
    by (repeat constructor).
  destruct (read_failure_is_not_displayed initial_world "openai.com"
              {| ar_job_id := "j1"; ar_status := queued |}
              [PollSettled (Resolved busy_job)] TypeError [0%nat]
              eq_refl Hobs) as [(He & _ & _ & p & Hp & Hrun & _ & _ & Htxt) _].
  split; [exact He|]. exists p. by split_and!.
Defined.

(** ** The page *)

(** X6: submitting a new analysis empties the loaded data and hides the
    results of the previous job, and they stay hidden through the new
    job's run until a status read reports it complete. *)
Theorem results_hidden_until_complete {S R G : Type}
    (s : Home S R G) (domain : string) (competitors : list string)
    (response : AnalyzeResponse) (evs : list Event) :
  Forall (λ job, status job ≠ complete) (observed evs) →
  let s' := with_job (λ w, run (start_settled (Resolved response) w) evs)
              (handleAnalyze domain competitors s) in
  hasResults s' = false
  ∧ subreddits _ _ _ s' = [] ∧ entities _ _ _ s' = []
  ∧ relationships _ _ _ s' = [] ∧ graphData _ _ _ s' = None
  ∧ competitiveOverview _ _ _ s' = None.
Proof.
  intros Hobs s'. subst s'. split_and!; try done.
  unfold hasResults. cbn [with_job job handleAnalyze].
  rewrite run_result_none; [|apply start_result_none|done].
  by apply bool_decide_eq_false_2; intros H.
Qed.

Lemma results_hidden_until_complete_witness :
  let old_job := {| job_id := "j0"; status := complete; progress := None;
                    error := None;
                    result := Some {| company_name := "OpenAI";
                                      company_aliases := None;
                                      subreddit_count := 3; source_count := 40;
                                      entity_count := 12;
                                      relationship_count := 5 |} |} in
  let busy_job := {| job_id := "j1"; status := running;
                     progress := Some resolving_company; error := None;
                     result := None |} in
  let before : Home unit unit unit :=
    {| job := job_run initial_world "openai.com"
                {| ar_job_id := "j0"; ar_status := queued |}
                [PollSettled (Resolved old_job)];
       subreddits := [tt]; entities := []; relationships := [];
       graphData := None; competitiveOverview := None |} in
  hasResults before = true
  ∧ hasResults
      (with_job
         (λ w, run (start_settled
                      (Resolved {| ar_job_id := "j1"; ar_status := queued |}) w)
                 [PollSettled (Resolved busy_job); Tick 1])
         (handleAnalyze "anthropic.com" [] before))
    = false.
Proof.
  intros old_job busy_job before. split; [reflexivity|].
  assert (Hobs : Forall (λ job, status job ≠ complete)
                   (observed [PollSettled (Resolved busy_job); Tick 1]))
    by (repeat constructor; done).
  exact (proj1 (results_hidden_until_complete before "anthropic.com" []
                  {| ar_job_id := "j1"; ar_status := queued |} _ Hobs)).
Defined.

(** X7: [fetchAllData] is all or nothing.  When all five requests resolve,
    the five datasets are replaced together by what was fetched; when any
    of them fails, none of the five is touched.  Either way the load flag
    is cleared and the job is left alone. *)
Theorem fetchAllData_all_or_nothing {S R G : Type}
    (subs : outcome (list S)) (ents : outcome (list Entity))
    (rels : outcome (list R)) (graph : outcome G)
    (competitive : outcome CompetitiveOverview) (p : Page (S := S) (R := R) (G := G)) :
  let p' := fetchAllData_settled subs ents rels graph competitive
              (fetchAllData_call p) in
  isLoadingData p' = false
  ∧ job (page_home p') = job (page_home p)
  ∧ ((∃ s e r g c,
        subs = Resolved s ∧ ents = Resolved e ∧ rels = Resolved r
        ∧ graph = Resolved g ∧ competitive = Resolved c
        ∧ subreddits _ _ _ (page_home p') = s
        ∧ entities _ _ _ (page_home p') = e
        ∧ relationships _ _ _ (page_home p') = r
        ∧ graphData _ _ _ (page_home p') = Some g
        ∧ competitiveOverview _ _ _ (page_home p') = Some c)
     ∨ ((∃ err, subs = Rejected err ∨ ents = Rejected err
                ∨ rels = Rejected err ∨ graph = Rejected err
                ∨ competitive = Rejected err)
        ∧ page_home p' = page_home p)).
Proof.
  intros p'. subst p'.
  destruct subs as [s|e1], ents as [e|e2], rels as [r|e3], graph as [g|e4],
    competitive as [c|e5]; cbn; split_and!; try done;
    first [ left; by eexists _, _, _, _, _
          | right; split; [|done]; eexists; eauto 6 ].
Qed.

(** ** Trimming and splitting *)

Lemma trimStart_fixed (c : ascii) (s : string) :
  is_js_space c = false → trimStart (String c s) = String c s.
Proof. intros Hc. cbn [trimStart]. by rewrite Hc. Qed.

Lemma trimEnd_idemp (s : string) : trimEnd (trimEnd s) = trimEnd s.
Proof.
  induction s as [|c s IH]; [done|]. cbn [trimEnd].
  destruct (trimEnd s) as [|k ks] eqn:Hk.
  - destruct (is_js_space c) eqn:Hc; [done|]. cbn [trimEnd]. by rewrite Hc.
  - cbn [trimEnd]. cbn [trimEnd] in IH. by rewrite IH.
Qed.

(** A string that does not begin with a character [trim] strips. *)
Lemma trimStart_head (s : string) :
  match trimStart s with
  | EmptyString => True
  | String c _ => is_js_space c = false
  end.
Proof.
  induction s as [|c s IH]; [done|]. cbn [trimStart].
  by destruct (is_js_space c) eqn:Hc.
Qed.

Lemma trimEnd_head (c : ascii) (s : string) :
  is_js_space c = false → ∃ k, trimEnd (String c s) = String c k.
Proof.
  intros Hc. cbn [trimEnd]. destruct (trimEnd s); rewrite ?Hc; by eexists.
Qed.

Lemma trim_idemp (s : string) : trim (trim s) = trim s.
Proof.
  unfold trim. pose proof (trimStart_head s) as Hh.
  destruct (trimStart s) as [|c x]; [done|].
  destruct (trimEnd_head c x Hh) as [k Hk]. rewrite Hk.
  by rewrite trimStart_fixed, <-Hk, trimEnd_idemp.
Qed.

Lemma trim_fixed (s : string) :
  trim s = s → trimStart s = s ∧ trimEnd s = s.
Proof.
  intros Ht. assert (Hs : trimStart s = s).
  { assert (Hform : s = "" ∨ ∃ c k, is_js_space c = false ∧ s = String c k).
    { pose proof (trimStart_head s) as Hh. unfold trim in Ht.
      destruct (trimStart s) as [|c x]; [left; by rewrite <-Ht|].
      destruct (trimEnd_head c x Hh) as [k Hk]. rewrite Hk in Ht.
      right. by exists c, k. }
    destruct Hform as [->|(c & k & Hc & ->)]; [done|by apply trimStart_fixed]. }
  split; [done|]. unfold trim in Ht. by rewrite Hs in Ht.
Qed.

Lemma trimStart_chars (s : string) (c : ascii) :
  c ∈ String.list_ascii_of_string (trimStart s) → c ∈ String.list_ascii_of_string s.
Proof.
  induction s as [|d s IH]; [done|]. cbn [trimStart].
  destruct (is_js_space d); [|done].
  intros Hin. cbn [String.list_ascii_of_string]. right. by apply IH.
Qed.

Lemma trimEnd_chars (s : string) (c : ascii) :
  c ∈ String.list_ascii_of_string (trimEnd s) → c ∈ String.list_ascii_of_string s.
Proof.
  induction s as [|d s IH]; [done|]. cbn [trimEnd String.list_ascii_of_string].
  destruct (trimEnd s) as [|k ks].
  - destruct (is_js_space d); cbn [String.list_ascii_of_string];
      [by intros ?%elem_of_nil|].
    intros [->|?%elem_of_nil]%elem_of_cons; [by left|done].
  - cbn [String.list_ascii_of_string].
    intros [->|Hin]%elem_of_cons; [by left|right; by apply IH].
Qed.

Lemma trim_chars (s : string) (c : ascii) :
  c ∈ String.list_ascii_of_string (trim s) → c ∈ String.list_ascii_of_string s.
Proof. intros Hin. by apply trimStart_chars, trimEnd_chars. Qed.

Lemma trimEnd_empty (s : string) :
  trimEnd s = "" ↔ Forall (λ c, is_js_space c = true) (String.list_ascii_of_string s).
Proof.
  induction s as [|c s IH]; [by split; [constructor|]|].
  cbn [trimEnd String.list_ascii_of_string]. rewrite Forall_cons, <-IH.
  destruct (trimEnd s); destruct (is_js_space c); naive_solver.
Qed.

Lemma trimStart_empty (s : string) :
  trimStart s = "" ↔ Forall (λ c, is_js_space c = true) (String.list_ascii_of_string s).
Proof.
  induction s as [|c s IH]; [by split; [constructor|]|].
  cbn [trimStart String.list_ascii_of_string]. rewrite Forall_cons, <-IH.
  destruct (is_js_space c); naive_solver.
Qed.

Lemma trim_empty (s : string) :
  trim s = "" ↔ Forall (λ c, is_js_space c = true) (String.list_ascii_of_string s).
Proof.
  unfold trim. rewrite <-trimStart_empty. split.
  - intros He. pose proof (trimStart_head s) as Hh.
    destruct (trimStart s) as [|c x]; [done|].
    destruct (trimEnd_head c x Hh) as [k Hk]. congruence.
  - by intros ->.
Qed.

Lemma append_nil (s : string) : "" +:+ s = s.
Proof. done. Qed.

Lemma append_cons (c : ascii) (a s : string) :
  String c a +:+ s = String c (a +:+ s).
Proof. done. Qed.

Lemma append_assoc (a b c : string) : (a +:+ b) +:+ c = a +:+ b +:+ c.
Proof. induction a as [|x a IH]; [done|]. by rewrite !append_cons, IH. Qed.

Lemma concat_cons_cons (sep x y : string) (l : list string) :
  String.concat sep (x :: y :: l) = x +:+ sep +:+ String.concat sep (y :: l).
Proof. done. Qed.

Lemma trimStart_blank_app (p s : string) :
  Forall (λ c, is_js_space c = true) (String.list_ascii_of_string p) →
  trimStart (p +:+ s) = trimStart s.
Proof.
  induction p as [|c p IH]; [done|]. cbn [String.list_ascii_of_string].
  intros [Hc Hp]%Forall_cons.
  change (trimStart (String c (p +:+ s)) = trimStart s).
  cbn [trimStart]. rewrite Hc. by apply IH.
Qed.

Lemma str_split_pieces (sep : ascii) (s : string) :
  str_split sep s ≠ []
  ∧ Forall (λ piece, sep ∉ String.list_ascii_of_string piece) (str_split sep s).
Proof.
  induction s as [|c s [Hne IH]]; cbn [str_split].
  - split; [done|]. repeat constructor. apply not_elem_of_nil.
  - destruct (Ascii.eqb_spec c sep) as [->|Hc].
    + split; [done|]. constructor; [apply not_elem_of_nil|done].
    + destruct (str_split sep s) as [|piece pieces]; [done|].
      split; [done|]. apply Forall_cons in IH as [Hp Hps].
      constructor; [|done]. cbn [String.list_ascii_of_string].
      intros [?|?]%elem_of_cons; by subst.
Qed.

Lemma str_split_app (sep : ascii) (a b : string) :
  sep ∉ String.list_ascii_of_string a →
  str_split sep (a +:+ String sep b) = a :: str_split sep b.
Proof.
  induction a as [|c a IH]; cbn [String.list_ascii_of_string]; intros Hin.
  - rewrite append_nil. cbn [str_split]. by rewrite Ascii.eqb_refl.
  - apply not_elem_of_cons in Hin as [Hc Ha].
    rewrite append_cons. cbn [str_split].
    destruct (Ascii.eqb_spec c sep) as [->|_]; [done|]. by rewrite IH.
Qed.

Lemma str_split_whole (sep : ascii) (a : string) :
  sep ∉ String.list_ascii_of_string a → str_split sep a = [a].
Proof.
  induction a as [|c a IH]; cbn [String.list_ascii_of_string]; intros Hin; [done|].
  apply not_elem_of_cons in Hin as [Hc Ha]. cbn [str_split].
  destruct (Ascii.eqb_spec c sep) as [->|_]; [done|]. by rewrite IH.
Qed.

Lemma list_ascii_of_string_app (a b : string) :
  String.list_ascii_of_string (a +:+ b)
  = (String.list_ascii_of_string a ++ String.list_ascii_of_string b)%list.
Proof.
  induction a as [|c a IH]; [done|].
  rewrite append_cons. cbn [String.list_ascii_of_string]. by rewrite IH.
Qed.

(** ** The analysis form *)

(** X10: the form calls [onSubmit] unless the domain field holds nothing
    but white space.  The domain it passes is the field's content trimmed,
    hence non-empty and free of surrounding white space, and every
    competitor it passes is non-empty, free of surrounding white space and
    free of commas. *)
Theorem handleSubmit_arguments (domain competitorsInput : string) :
  (handleSubmit domain competitorsInput = None
   ↔ Forall (λ c, is_js_space c = true) (String.list_ascii_of_string domain))
  ∧ (∀ trimmed competitors,
       handleSubmit domain competitorsInput = Some (trimmed, competitors) →
       trimmed = trim domain ∧ trimmed ≠ "" ∧ trim trimmed = trimmed
       ∧ Forall (λ v, v ≠ "" ∧ trim v = v
                      ∧ ","%char ∉ String.list_ascii_of_string v) competitors).
Proof.
  unfold handleSubmit. split.
  - rewrite <-trim_empty. destruct (String.eqb_spec (trim domain) ""); naive_solver.
  - intros trimmed competitors.
    destruct (String.eqb_spec (trim domain) "") as [|Hne]; [done|].
    intros [= <- <-]. split_and!; [done|done|apply trim_idemp|].
    apply Forall_forall. intros v [Hlen Hin]%list_elem_of_filter.
    apply list_elem_of_fmap in Hin as (piece & -> & Hpiece).
    split_and!.
    + intros He. rewrite He in Hlen. simpl in Hlen. lia.
    + apply trim_idemp.
    + intros Hc%trim_chars.
      destruct (str_split_pieces ","%char competitorsInput) as [_ Hall].
      rewrite Forall_forall in Hall. by apply (Hall piece).
Qed.

Lemma handleSubmit_arguments_witness :
  handleSubmit "  openai.com " "anthropic.com, ,mistral.ai ,"
  = Some ("openai.com", ["anthropic.com"; "mistral.ai"])
  ∧ trim "openai.com" = "openai.com".
Proof.
  split; [reflexivity|].
  destruct (handleSubmit_arguments "  openai.com "
              "anthropic.com, ,mistral.ai ,") as [_ Hargs].
  destruct (Hargs "openai.com" ["anthropic.com"; "mistral.ai"] eq_refl)
    as (_ & _ & Htrim & _).
  exact Htrim.
Defined.

Lemma competitors_of_joined (pad : string) (names : list string) (p : string) :
  Forall (λ c, is_js_space c = true) (String.list_ascii_of_string pad) →
  Forall (λ c, is_js_space c = true) (String.list_ascii_of_string p) →
  Forall (λ v, v ≠ "" ∧ trim v = v ∧ ","%char ∉ String.list_ascii_of_string v) names →
  names ≠ [] →
  filter (λ value, (0 < String.length value)%nat)
    (trim <$> str_split ","%char
                (p +:+ String.concat (String ","%char pad) names))
  = names.
Proof.
  intros Hpad Hp Hnames. revert p Hp.
  assert (Hblank : ∀ q, Forall (λ c, is_js_space c = true) (String.list_ascii_of_string q) →
                        ","%char ∉ String.list_ascii_of_string q).
  { intros q Hq Hin. rewrite Forall_forall in Hq. by specialize (Hq _ Hin). }
  assert (Hone : ∀ q v,
            Forall (λ c, is_js_space c = true) (String.list_ascii_of_string q) →
            v ≠ "" ∧ trim v = v ∧ ","%char ∉ String.list_ascii_of_string v →
            trim (q +:+ v) = v
            ∧ (","%char ∉ String.list_ascii_of_string (q +:+ v))
            ∧ (0 < String.length v)%nat).
  { intros q v Hq (Hv & Ht & Hc). destruct (trim_fixed v Ht) as [Hs He].
    split_and!.
    - unfold trim. by rewrite trimStart_blank_app, Hs, He.
    - rewrite list_ascii_of_string_app, not_elem_of_app. split; [by apply Hblank|done].
    - destruct v; [done|simpl; lia]. }
  induction Hnames as [|v names Hv Hnames IH]; [done|]. intros p Hp _.
  destruct (Hone p v Hp Hv) as (Htrim & Hcomma & Hlen).
  destruct names as [|v' names'].
  - cbn [String.concat]. rewrite str_split_whole by done.
    rewrite list_fmap_singleton, Htrim. by rewrite filter_cons_True, filter_nil.
  - rewrite concat_cons_cons, <-append_assoc, append_cons.
    rewrite str_split_app by done. rewrite fmap_cons, Htrim.
    rewrite filter_cons_True by done. f_equal. by apply IH.
Qed.

(** X11: typing competitor names separated by a comma and any white space
    gives the form exactly those names, in order, provided each name is
    non-empty and has no comma and no surrounding white space. *)
Theorem handleSubmit_roundtrip (domain pad : string) (names : list string) :
  trim domain ≠ "" →
  Forall (λ c, is_js_space c = true) (String.list_ascii_of_string pad) →
  Forall (λ v, v ≠ "" ∧ trim v = v ∧ ","%char ∉ String.list_ascii_of_string v) names →
  handleSubmit domain (String.concat (String ","%char pad) names)
  = Some (trim domain, names).
Proof.
  intros Hd Hpad Hnames. unfold handleSubmit.
  destruct (String.eqb_spec (trim domain) ""); [done|]. do 2 f_equal.
  destruct names as [|v names]; [done|].
  apply (competitors_of_joined pad (v :: names) ""); [done|constructor|done..].
Qed.

Lemma handleSubmit_roundtrip_witness :
  handleSubmit "stripe.com"
    (String.concat ", " ["adyen.com"; "square up"; "paypal.com"])
  = Some ("stripe.com", ["adyen.com"; "square up"; "paypal.com"]).
Proof.
  apply (handleSubmit_roundtrip "stripe.com" " "
           ["adyen.com"; "square up"; "paypal.com"]).
  - done.
  - by repeat constructor.
  - repeat constructor; try done; by compute_done.
Defined.

(** ** Relationship labels *)

Lemma trimEnd_cons_fixed (c : ascii) (s : string) :
  trimEnd s = s → s ≠ "" ∨ is_js_space c = false →
  trimEnd (String c s) = String c s.
Proof.
  intros Hs Hor. cbn [trimEnd]. rewrite Hs.
  destruct s; [|done]. destruct Hor as [?|Hc]; [done|by rewrite Hc].
Qed.

Lemma letter_not_space (c : ascii) :
  is_lower_az c || is_upper_AZ c = true → is_js_space c = false.
Proof.
  unfold is_lower_az, is_upper_AZ, is_js_space.
  generalize (nat_of_ascii c). intros n Hn.
  apply orb_true_iff in Hn as [Hn|Hn]; apply andb_true_iff in Hn as [H1 H2];
    apply Nat.leb_le in H1, H2;
    repeat (apply orb_false_iff; split);
    first [ apply andb_false_iff; right; apply Nat.leb_gt; lia
          | apply Nat.eqb_neq; lia ].
Qed.

Lemma trimEnd_space_before_capitals (s : string) :
  Forall (λ c, is_lower_az c || is_upper_AZ c = true)
    (String.list_ascii_of_string s) →
  trimEnd (space_before_capitals s) = space_before_capitals s.
Proof.
  induction s as [|c s IH]; [done|]. cbn [String.list_ascii_of_string].
  intros [Hc Hs]%Forall_cons. cbn [space_before_capitals].
  assert (Hin : trimEnd (String c (space_before_capitals s))
                = String c (space_before_capitals s)).
  { apply trimEnd_cons_fixed; [by apply IH|]. right. by apply letter_not_space. }
  destruct (is_upper_AZ c); [|done].
  apply trimEnd_cons_fixed; [done|by left].
Qed.

Lemma space_before_capitals_inj (s1 s2 : string) :
  Forall (λ c, is_lower_az c || is_upper_AZ c = true)
    (String.list_ascii_of_string s1) →
  Forall (λ c, is_lower_az c || is_upper_AZ c = true)
    (String.list_ascii_of_string s2) →
  space_before_capitals s1 = space_before_capitals s2 → s1 = s2.
Proof.
  revert s2; induction s1 as [|c1 s1 IH]; intros [|c2 s2];
    cbn [String.list_ascii_of_string space_before_capitals].
  - done.
  - intros _ _. by destruct (is_upper_AZ c2).
  - intros _ _. by destruct (is_upper_AZ c1).
  - intros [H1 Hs1]%Forall_cons [H2 Hs2]%Forall_cons.
    assert (Hsp : ∀ c, is_lower_az c || is_upper_AZ c = true → c ≠ " "%char).
    { intros c Hc ->. by apply letter_not_space in Hc. }
    destruct (is_upper_AZ c1), (is_upper_AZ c2); intros [=]; subst;
      try (by destruct (Hsp _ H1)); try (by destruct (Hsp _ H2));
      f_equal; by apply IH.
Qed.

(** X12: for a relationship type written in lowerCamelCase (ASCII letters,
    the first one lower case) the label is the type with its first letter
    in upper case and one space before every later capital, and distinct
    types get distinct labels. *)
Theorem formatRelationshipType_lowerCamelCase
    (toUpperCase : string → string) (c : ascii) (rest : string) :
  (∀ x, is_lower_az x = true →
        toUpperCase (String x "")
        = String (ascii_of_nat (nat_of_ascii x - 32)) "") →
  is_lower_az c = true →
  Forall (λ x, is_lower_az x || is_upper_AZ x = true)
    (String.list_ascii_of_string rest) →
  formatRelationshipType toUpperCase (String c rest)
  = String (ascii_of_nat (nat_of_ascii c - 32)) (space_before_capitals rest)
  ∧ (∀ c' rest',
       is_lower_az c' = true →
       Forall (λ x, is_lower_az x || is_upper_AZ x = true)
         (String.list_ascii_of_string rest') →
       formatRelationshipType toUpperCase (String c' rest')
       = formatRelationshipType toUpperCase (String c rest) →
       String c' rest' = String c rest).
Proof.
  intros Hup.
  assert (Hlow : ∀ x, is_lower_az x = true →
            (97 ≤ nat_of_ascii x ≤ 122)%nat).
  { intros x Hx. unfold is_lower_az in Hx. cbv zeta in Hx.
    apply andb_true_iff in Hx as [H1 H2]. apply Nat.leb_le in H1, H2. lia. }
  assert (Hcode : ∀ x, is_lower_az x = true →
            nat_of_ascii (ascii_of_nat (nat_of_ascii x - 32))
            = (nat_of_ascii x - 32)%nat).
  { intros x Hx%Hlow. apply nat_ascii_embedding. lia. }
  assert (Hfmt : ∀ x r, is_lower_az x = true →
            Forall (λ x, is_lower_az x || is_upper_AZ x = true)
              (String.list_ascii_of_string r) →
            formatRelationshipType toUpperCase (String x r)
            = String (ascii_of_nat (nat_of_ascii x - 32))
                (space_before_capitals r)).
  { intros x r Hx Hr. pose proof (Hlow x Hx) as Hn.
    unfold formatRelationshipType. cbn [space_before_capitals].
    assert (Hnu : is_upper_AZ x = false).
    { unfold is_upper_AZ. cbv zeta. apply andb_false_iff. right.
      apply Nat.leb_gt. lia. }
    rewrite Hnu. cbn [upper_first].
    assert (Hnl : is_line_terminator x = false).
    { unfold is_line_terminator. cbv zeta.
      apply orb_false_iff; split; apply Nat.eqb_neq; lia. }
    rewrite Hnl, Hup by done. rewrite append_cons, append_nil.
    assert (Hns : is_js_space (ascii_of_nat (nat_of_ascii x - 32)) = false).
    { unfold is_js_space. rewrite Hcode by done. cbv zeta.
      repeat (apply orb_false_iff; split);
        first [ apply andb_false_iff; right; apply Nat.leb_gt; lia
              | apply Nat.eqb_neq; lia ]. }
    unfold trim. rewrite trimStart_fixed by done.
    apply trimEnd_cons_fixed; [by apply trimEnd_space_before_capitals|by right]. }
  intros Hc Hrest. split; [by apply Hfmt|].
  intros c' rest' Hc' Hrest'. rewrite !Hfmt by done. intros [= Hhead Htail].
  f_equal.
  - assert (Hn : (nat_of_ascii c' - 32 = nat_of_ascii c - 32)%nat).
    { by rewrite <-(Hcode c'), <-(Hcode c), Hhead. }
    pose proof (Hlow c Hc). pose proof (Hlow c' Hc').
    rewrite <-(ascii_nat_embedding c'), <-(ascii_nat_embedding c).
    f_equal. lia.
  - by apply space_before_capitals_inj.
Qed.

Lemma formatRelationshipType_lowerCamelCase_witness :
  let upper := λ s : string,
    match s with
    | String x "" =>
        if is_lower_az x then String (ascii_of_nat (nat_of_ascii x - 32)) ""
        else s
    | _ => s
    end in
  formatRelationshipType upper "parentCompany" = "Parent Company".
Proof.
  intros upper.
  refine (eq_trans (proj1 (formatRelationshipType_lowerCamelCase upper
                             "p"%char "arentCompany" _ eq_refl _)) eq_refl).
  - intros x Hx. cbn. by rewrite Hx.
  - repeat constructor.
Defined.

(** ** The graph view and the entity list *)

(** X14: while a node is hovered, the set [highlightedEdges] holds the
    indices 0 to k-1, where k is the number of edges that touch the hovered
    node: the indices are taken in the filtered array, so which edges are
    drawn highlighted depends on how many edges touch the node and not on
    which ones do.  With no node hovered the set is empty. *)
Theorem highlightedEdges_first_indices
    (hoveredNode : option Z) (data : GraphData) (i : nat) :
  (∀ h, hoveredNode = Some h →
        (i ∈ highlightedEdges hoveredNode (Some data)
         ↔ (i < length (filter (incident h) (gd_edges data)))%nat)
        ∧ edge_isHighlighted None hoveredNode (Some data) i
          = bool_decide (i < length (filter (incident h) (gd_edges data)))%nat)
  ∧ (hoveredNode = None →
     highlightedEdges hoveredNode (Some data) = []
     ∧ ∀ hoveredEdge,
         edge_isHighlighted hoveredEdge hoveredNode (Some data) i
         = bool_decide (hoveredEdge = Some i)).
Proof.
  split.
  - intros h ->. cbn [highlightedEdges].
    assert (Hmem : i ∈ imap (λ j _, j) (filter (incident h) (gd_edges data))
                   ↔ (i < length (filter (incident h) (gd_edges data)))%nat).
    { rewrite (imap_seq_0 _ (λ j, j)), list_fmap_id.
      rewrite elem_of_seq. lia. }
    split; [done|]. unfold edge_isHighlighted. cbn [highlightedEdges].
    rewrite bool_decide_eq_false_2 by done.
    rewrite bool_decide_eq_true_2 by done. cbn [orb andb].
    by apply bool_decide_ext.
  - intros ->. split; [done|]. intros hoveredEdge. unfold edge_isHighlighted.
    rewrite (bool_decide_eq_false_2 (None ≠ None)) by (by intros H).
    by rewrite andb_false_l, orb_false_r.
Qed.

Lemma highlightedEdges_first_indices_witness :
  let edge := λ a b, {| ge_source := a; ge_target := b; ge_type := "investor";
                        ge_confidence := 1%Qc; ge_source_id := None |} in
  let data := {| gd_nodes := []; gd_edges := [edge 1 2; edge 3 4] |} in
  edge_isHighlighted None (Some 3) (Some data) 0 = true
  ∧ edge_isHighlighted None (Some 3) (Some data) 1 = false.
Proof.
  intros edge data.
  destruct (highlightedEdges_first_indices (Some 3) data 0) as [H0 _].
  destruct (highlightedEdges_first_indices (Some 3) data 1) as [H1 _].
  destruct (H0 3 eq_refl) as [_ ->]. destruct (H1 3 eq_refl) as [_ ->].
  split; reflexivity.
Defined.

(** X15: a node's label is its name when the name has at most 15
    characters; a longer name is cut to its first 15 characters followed by
    three dots, so a label is at most 18 characters long. *)
Theorem node_label_length (name : string) :
  ((String.length name ≤ 15)%nat → node_label name = name)
  ∧ ((15 < String.length name)%nat →
     node_label name = String.substring 0 15 name +:+ "..."
     ∧ String.length (node_label name) = 18%nat)
  ∧ (String.length (node_label name) ≤ 18)%nat.
Proof.
  unfold node_label.
  destruct (Nat.ltb_spec 15 (String.length name)) as [Hlong|Hshort].
  - assert (Hcut : slice0 name 15 = String.substring 0 15 name).
    { rewrite slice0_prefix by lia. done. }
    rewrite Hcut, length_append, length_substring0 by lia.
    split_and!; [lia|done|simpl; lia].
  - split_and!; [done|lia|lia].
Qed.

Lemma node_label_length_witness :
  node_label "Andreessen Horowitz" = "Andreessen Horo..."
  ∧ node_label "OpenAI" = "OpenAI".
Proof.
  destruct (node_label_length "Andreessen Horowitz") as (_ & Hlong & _).
  destruct (node_label_length "OpenAI") as (Hshort & _ & _).
  split.
  - destruct (Hlong ltac:(simpl; lia)) as [-> _]. reflexivity.
  - apply Hshort. simpl. lia.
Defined.

(** X16: the entity list and the graph view classify an entity type the
    same way: a type that lower-cases to "company" or "organization" gets
    the primary tag and the blue node, "person" gets the info tag and the
    emerald node, and anything else, a missing type included, gets the
    default tag and the gray node. *)
Theorem entity_type_tag_matches_node_color
    (toLowerCase : string → string) (type : option string) :
  (getEntityTypeVariant toLowerCase type, getNodeColor toLowerCase type)
  ∈ [(tv_primary, "#3b82f6"); (tv_info, "#10b981"); (tv_default, "#6b7280")]
  ∧ (getEntityTypeVariant toLowerCase type = tv_primary
     ↔ ∃ t, type = Some t
            ∧ (toLowerCase t = "company" ∨ toLowerCase t = "organization"))
  ∧ (getEntityTypeVariant toLowerCase type = tv_info
     ↔ ∃ t, type = Some t ∧ toLowerCase t = "person").
Proof.
  unfold getEntityTypeVariant, getNodeColor.
  destruct type as [t|]; cbv zeta.
  - destruct (String.eqb_spec (toLowerCase t) "company") as [Hc|Hc];
      destruct (String.eqb_spec (toLowerCase t) "organization") as [Ho|Ho];
      destruct (String.eqb_spec (toLowerCase t) "person") as [Hp|Hp];
      cbn [orb]; (split_and!; [set_solver|..]);
      try (split; [intros _; exists t; auto | done]);
      try (split; [done | intros (t' & [= <-] & H); naive_solver]);
      try congruence.
  - split_and!; [set_solver|..]; split; try done; by intros (t & ? & _).
Qed.

(** ** The entity detail hook *)

(** X13: when each fetch settles before the next action, the state of the
    detail hook depends on the last action alone: a successful fetch leaves
    its entity and no error, a failed one leaves no entity and its message,
    closing leaves neither.  So an entity and an error are never held
    together and the hook is not loading; the modal is open after a
    successful fetch and closed after [clear]. *)
Theorem detail_state_from_last_action
    (s : EntityDetailState) (actions : list DetailAction) (a : DetailAction) :
  let s' := foldl detail_step s (actions ++ [a]) in
  s' = match a with
       | Select _ (Resolved detail) =>
           {| eds_entity := Some detail; eds_isLoading := false;
              eds_error := None |}
       | Select _ (Rejected err) =>
           {| eds_entity := None; eds_isLoading := false;
              eds_error :=
                Some (message_of err "Failed to fetch entity details") |}
       | Close =>
           {| eds_entity := None; eds_isLoading := false; eds_error := None |}
       end
  ∧ eds_isLoading s' = false
  ∧ (eds_entity s' = None ∨ eds_error s' = None)
  ∧ modal_open s' = match a with
                    | Select _ (Resolved _) => true
                    | Select _ (Rejected err) =>
                        negb (String.eqb
                                (message_of err "Failed to fetch entity details")
                                "")
                    | Close => false
                    end.
Proof.
  intros s'. subst s'. rewrite foldl_app. cbn [foldl].
  destruct a as [entityId [detail|err]|]; unfold modal_open;
    cbn [detail_step fetch_settled fetch_call clear eds_entity eds_isLoading
         eds_error nonempty negb];
    split_and!; auto.
  rewrite bool_decide_eq_true_2 by done. cbn [andb].
  by rewrite negb_involutive.
Qed.

(** ** Truncation outside its intended range *)

Lemma length_slice0 (s : string) (e : Z) :
  Z.of_nat (String.length (slice0 s e))
  = if e <? 0 then Z.max (Z.of_nat (String.length s) + e) 0
    else Z.min e (Z.of_nat (String.length s)).
Proof.
  unfold slice0. cbv zeta.
  destruct (Z.ltb_spec e 0); rewrite length_substring0; lia.
Qed.

Lemma truncate_length (s : string) (maxLen : Z) :
  Z.of_nat (String.length (truncate s maxLen))
  = if Z.of_nat (String.length s) <=? maxLen then Z.of_nat (String.length s)
    else (if maxLen - 3 <? 0
          then Z.max (Z.of_nat (String.length s) + (maxLen - 3)) 0
          else Z.min (maxLen - 3) (Z.of_nat (String.length s))) + 3.
Proof.
  unfold truncate.
  destruct (Z.leb_spec (Z.of_nat (String.length s)) maxLen); [done|].
  rewrite length_append, Nat2Z.inj_add, length_slice0. done.
Qed.

(** X17: the bound of [truncate] needs [maxLen >= 3].  For a smaller
    [maxLen] a string longer than [maxLen] comes back longer than
    [maxLen]: the negative slice end counts from the end of the string, so
    the result keeps all but the last [3 - maxLen] characters and then
    gets the three dots. *)
Theorem truncate_below_three (str : string) (maxLen : Z) :
  maxLen < 3 →
  maxLen < Z.of_nat (String.length str) →
  truncate str maxLen = slice0 str (maxLen - 3) +:+ "..."
  ∧ Z.of_nat (String.length (truncate str maxLen))
    = Z.max (Z.of_nat (String.length str) + maxLen - 3) 0 + 3
  ∧ maxLen < Z.of_nat (String.length (truncate str maxLen)).
Proof.
  intros Hsmall Hlong.
  pose proof (truncate_length str maxLen) as Hlen.
  destruct (Z.leb_spec (Z.of_nat (String.length str)) maxLen) as [|_]; [lia|].
  destruct (Z.ltb_spec (maxLen - 3) 0) as [_|]; [|lia].
  split_and!.
  - unfold truncate.
    by destruct (Z.leb_spec (Z.of_nat (String.length str)) maxLen); [lia|].
  - rewrite Hlen. lia.
  - rewrite Hlen. lia.
Qed.

Lemma truncate_below_three_witness :
  truncate "hello world" 2 = "hello worl..."
  ∧ 2 < Z.of_nat (String.length (truncate "hello world" 2)).
Proof.
  destruct (truncate_below_three "hello world" 2 ltac:(lia) ltac:(simpl; lia))
    as (Heq & _ & Hlt).
  split; [|exact Hlt]. rewrite Heq. reflexivity.
Defined.

(** X18: for [maxLen >= 3] truncating twice is truncating once: what
    [truncate] returns already fits. *)
Theorem truncate_idempotent (str : string) (maxLen : Z) :
  3 ≤ maxLen →
  truncate (truncate str maxLen) maxLen = truncate str maxLen.
Proof.
  intros Hmax.
  assert (Hfit : Z.of_nat (String.length (truncate str maxLen)) ≤ maxLen).
  { rewrite truncate_length.
    destruct (Z.leb_spec (Z.of_nat (String.length str)) maxLen); [done|].
    destruct (Z.ltb_spec (maxLen - 3) 0); lia. }
  unfold truncate at 1.
  by destruct (Z.leb_spec (Z.of_nat (String.length (truncate str maxLen)))
                 maxLen); [|lia].
Qed.

Lemma truncate_idempotent_witness :
  truncate (truncate "a long evidence snippet" 10) 10
  = truncate "a long evidence snippet" 10.
Proof. apply truncate_idempotent. lia. Defined.

(** ** Answers that arrive late *)

(** X19: [poll] does not tell the answers of overlapping reads apart.  When
    a read resolves with a status that is not terminal after another read
    has reported the job complete with a result, the hook exposes the later
    status together with the earlier result: the page shows the results
    and, in the status panel, the Running tag. *)
Theorem late_answer_keeps_result
    (w : World) (domain : string) (response : AnalyzeResponse)
    (evs : list Event) (done_job late_job : JobResponse) (res : JobResult)
    (ids : list nat) :
  status done_job = complete → result done_job = Some res →
  is_terminal (status late_job) = false →
  let h := hook (job_run w domain response
                   (evs ++ PollSettled (Resolved done_job)
                        :: (Tick <$> ids)
                        ++ [PollSettled (Resolved late_job)])) in
  st_result h = Some res
  ∧ st_status h = Some (status late_job)
  ∧ ∃ p, status_panel h = Some p
         ∧ sp_running_tag p = true ∧ sp_complete_tag p = false.
Proof.
  intros Hdone Hres Hlate h. subst h. unfold job_run.
  rewrite run_app, run_cons, run_app.
  set (w1 := run _ evs).
  set (w2 := step w1 (PollSettled (Resolved done_job))).
  assert (H2 : st_result (hook w2) = Some res).
  { subst w2. cbn [step].
    rewrite (proj1 (proj2 (poll_settled_exposed (Resolved done_job) w1))).
    by rewrite Hdone, decide_True. }
  set (w3 := run w2 (Tick <$> ids)).
  assert (H3 : st_result (hook w3) = Some res).
  { subst w3. by rewrite hook_ticks. }
  cbn [run foldl step].
  pose proof (poll_settled_exposed (Resolved late_job) w3) as (Hs & Hr & _).
  assert (Hne : status late_job ≠ complete).
  { intros Hc. by rewrite Hc in Hlate. }
  rewrite decide_False in Hr by done.
  split_and!; [by rewrite Hr|done|].
  unfold status_panel. rewrite Hs.
  destruct (status late_job) eqn:Hl; try done;
    cbn; eexists; split_and!; done.
Qed.

Lemma late_answer_keeps_result_witness :
  let res := {| company_name := "OpenAI"; company_aliases := None;
                subreddit_count := 3; source_count := 40;
                entity_count := 12; relationship_count := 5 |} in
  let done_job := {| job_id := "j1"; status := complete; progress := None;
                     error := None; result := Some res |} in
  let late_job := {| job_id := "j1"; status := running;
                     progress := Some persisting; error := None;
                     result := None |} in
  let h := hook (job_run initial_world "openai.com"
                   {| ar_job_id := "j1"; ar_status := queued |}
                   [Tick 0; PollSettled (Resolved done_job);
                    PollSettled (Resolved late_job)]) in
  st_result h = Some res ∧ st_status h = Some running.
Proof.
  intros res done_job late_job h.
  destruct (late_answer_keeps_result initial_world "openai.com"
              {| ar_job_id := "j1"; ar_status := queued |}
              [Tick 0] done_job late_job res [] eq_refl eq_refl eq_refl)
    as (Hr & Hs & _).
  by split.
Defined.
